(** * japan-card: the card scraper (c.py) and the image downloader (d.py)

    A shallow embedding of the two scripts and the properties of their
    merge engine, page scheduler, extractor and download planner.

    Conventions of the embedding.
    - A Python [str] is a [string] (its UTF-8 bytes).
    - A JSON value is a [value]: text, array or object.  These are the
      only shapes c.py ever writes into a record; numbers, booleans and
      null are left out of the model.
    - A card is a Python dict from field name to value: [gmap string value].
      [a.update(b)] is the left-biased union [b ∪ a].
    - The name-keyed store of [merge_cards] is a Python dict, which keeps
      insertion order: an association list with first-match lookup
      ([dict_get]), in-place replacement and append-on-new-key ([dict_set]).
    - A raised exception is [None] in the [option] monad; each use says which
      Python exception it stands for.
    - Records are handled by value.  In main the stored records come fresh
      from [json.load] and the scraped ones from a fresh [card = {}] per
      list item, so no two of them are the same object. *)

From Stdlib Require Import Ascii.
From stdpp Require Import gmap strings list fin_maps pretty.

Set Warnings "-register-all".
Local Open Scope string_scope.
Local Open Scope list_scope.
Local Open Scope Z_scope.

(** ** Data model *)

Inductive value :=
  | VStr (s : string)
  | VList (l : list value)
  | VDict (d : gmap string value).

Abbreviation card := (gmap string value).

(** A [for] loop whose body may raise: the first exception ends the loop. *)
Fixpoint foldM {A B : Type} (f : B → A → option B) (acc : B) (l : list A)
  : option B :=
  match l with
  | [] => Some acc
  | x :: rest => acc' ← f acc x; foldM f acc' rest
  end.

(** Python's dict, keyed by text, in insertion order. *)
Section dict.
Context {V : Type}.

Fixpoint dict_get (k : string) (d : list (string * V)) : option V :=
  match d with
  | [] => None
  | (k', v) :: rest => if decide (k = k') then Some v else dict_get k rest
  end.

(** [d[k] = v]: replaces in place when [k] is a key, appends otherwise. *)
Fixpoint dict_set (k : string) (v : V) (d : list (string * V))
  : list (string * V) :=
  match d with
  | [] => [(k, v)]
  | (k', v') :: rest =>
      if decide (k = k') then (k, v) :: rest else (k', v') :: dict_set k v rest
  end.

Definition dict_values (d : list (string * V)) : list V := d.*2.
End dict.

Abbreviation dict V := (list (string * V)).

(** ** c.py: persistence and merge *)

(** What the file system has at a path.
    - [NoDirectory]: the directory of the path does not exist;
      [os.path.exists] is false and [open(path, 'w')] raises
      FileNotFoundError.
    - [NoFile]: the directory exists and holds no such file.
    - [BadFile]: a file whose content does not load: every outcome of the
      [try] block that raises before the comprehension starts (invalid
      JSON, a top level that is not an array of objects).
    - [JsonArray]: a file holding a JSON array of objects.
    The file system has no permissions and no quota: where the directory
    exists, [open(path, 'w')] and [json.dump] succeed. *)
Inductive store_file :=
  | NoDirectory
  | NoFile
  | BadFile
  | JsonArray (cards : list card).

(** [open(path, 'w')] returns. *)
Definition opens_for_writing (f : store_file) : bool :=
  match f with
  | NoDirectory => false
  | _ => true
  end.

(** [{card['name']: card for card in cards if 'name' in card}].  A key that
    is a list or a dict raises TypeError (unhashable). *)
Definition name_index_step (acc : dict card) (c : card) : option (dict card) :=
  match c !! "name" with
  | None => Some acc
  | Some (VStr n) => Some (dict_set n c acc)
  | Some _ => None
  end.

Definition load_existing_cards (f : store_file) : dict card :=
  match f with
  | NoDirectory => []
  | NoFile => []
  | BadFile => []
  | JsonArray cards =>
      match foldM name_index_step [] cards with
      | Some d => d
      | None => []
      end
  end.

(** The two assignments that stamp a fresh card. *)
Definition stamp (current_time : string) (c : card) : card :=
  <["updated_at" := VStr current_time]> (<["created_at" := VStr current_time]> c).

(** One iteration of the loop of [merge_cards].  [None] is the TypeError of
    [card['name'] in merged] on an unhashable name. *)
Definition merge_step (current_time : string) (merged : dict card) (c : card)
  : option (dict card) :=
  match c !! "name" with
  | None => Some merged
  | Some (VStr n) =>
      match dict_get n merged with
      | Some old =>
          Some (dict_set n (<["updated_at" := VStr current_time]> (c ∪ old)) merged)
      | None =>
          Some (dict_set n (stamp current_time c) merged)
      end
  | Some _ => None
  end.

Definition merge_loop (current_time : string) (merged : dict card)
  (new_cards : list card) : option (dict card) :=
  foldM (merge_step current_time) merged new_cards.

(** [current_time] is read once, before the loop. *)
Definition merge_cards (existing_cards : dict card) (new_cards : list card)
  (current_time : string) : option (list card) :=
  dict_values <$> merge_loop current_time existing_cards new_cards.

(** ** c.py: the parsed page

    The tree BeautifulSoup builds with html.parser.  [Text] is a
    NavigableString (or CData); [Other] is a string of another class, which
    [.text] of an enclosing tag leaves out: a comment, a declaration, or the
    content of [script], [style] or [template].  [classes] is the
    multi-valued class attribute, already split; [attrs] holds the other
    attributes. *)
Inductive node :=
  | Text (s : string)
  | Other (s : string)
  | Elem (tag : string) (classes : list string) (attrs : gmap string string)
      (kids : list node).

(** All nodes below [n], in document order. *)
Fixpoint descendants (n : node) : list node :=
  match n with
  | Text _ | Other _ => []
  | Elem _ _ _ kids =>
      (fix go (l : list node) : list node :=
         match l with
         | [] => []
         | k :: rest => (k :: descendants k) ++ go rest
         end) kids
  end.

(** [tag.text], for a tag that is not itself [script], [style] or
    [template] (the extractor calls it on [div], [a], [span], [p] and [li]):
    the NavigableStrings below the tag, concatenated. *)
Fixpoint text (n : node) : string :=
  match n with
  | Text s => s
  | Other _ => ""
  | Elem _ _ _ kids =>
      (fix go (l : list node) : string :=
         match l with
         | [] => ""
         | k :: rest => text k +:+ go rest
         end) kids
  end.

Definition matches (tag : string) (class_ : option string) (n : node) : bool :=
  match n with
  | Text _ | Other _ => false
  | Elem t cs _ _ =>
      bool_decide (t = tag) &&
      match class_ with
      | None => true
      | Some c => bool_decide (c ∈ cs)
      end
  end.

Definition find_all (tag : string) (class_ : option string) (n : node)
  : list node :=
  filter (λ d, matches tag class_ d = true) (descendants n).

Definition find (tag : string) (class_ : option string) (n : node)
  : option node :=
  head (find_all tag class_ n).

(** [tag[key]]: KeyError when the attribute is missing. *)
Definition attr (n : node) (key : string) : option string :=
  match n with
  | Text _ | Other _ => None
  | Elem _ _ attrs _ => attrs !! key
  end.

(** ** c.py: the record extractor *)

Section extractor.
(** [str.strip], which also removes Unicode white space; no property
    below depends on what it removes. *)
Variable strip : string → string.

(** The brand loop: an item with an [img] appends one dict, whose two
    subscripts raise KeyError when [src] or [alt] is missing. *)
Definition append_brand (brands : list value) (brand_item : node)
  : option (list value) :=
  match find "img" None brand_item with
  | None => Some brands
  | Some brand_img =>
      src ← attr brand_img "src";
      alt ← attr brand_img "alt";
      Some (brands ++ [VDict (<["name" := VStr alt]> {["image_url" := VStr src]})])
  end.

(** The body of [for spec in specs].  A missing head [div] raises
    AttributeError at [.text]; a missing detail [div] raises it only when
    one of the three known labels dereferences it. *)
Definition spec_step (c : card) (spec : node) : option card :=
  head_div ← find "div" (Some "p-itemBox_data_spec_head") spec;
  let head := strip (text head_div) in
  let detail := find "div" (Some "p-itemBox_data_spec_detail") spec in
  if decide (head = "国際ブランド") then
    d ← detail;
    brands ← foldM append_brand []
               (find_all "li" (Some "p-itemBox_data_brand_item") d);
    Some (<["brands" := VList brands]> c)
  else if decide (head = "年会費") then
    d ← detail; Some (<["annual_fee" := VStr (strip (text d))]> c)
  else if decide (head = "ポイント還元率") then
    d ← detail; Some (<["point_rate" := VStr (strip (text d))]> c)
  else Some c.

Definition set_image_url (item : node) (c : card) : option card :=
  match find "div" (Some "main-card") item with
  | None => Some c
  | Some card_img =>
      match find "img" None card_img with
      | None => Some c
      | Some img => src ← attr img "src"; Some (<["image_url" := VStr src]> c)
      end
  end.

Definition set_name (item : node) (c : card) : option card :=
  match find "div" (Some "card-spec-blk") item with
  | None => Some c
  | Some card_info =>
      match find "a" (Some "p-planSearchList_name_link") card_info with
      | None => Some c
      | Some name_link =>
          let c := <["name" := VStr (strip (text name_link))]> c in
          href ← attr name_link "href";
          Some (<["detail_url" := VStr ("https://kakaku.com" +:+ href)]> c)
      end
  end.

Definition set_rank (item : node) (c : card) : card :=
  match find "span" (Some "rank-box") item with
  | None => c
  | Some rank =>
      match find "span" None rank with
      | None => c
      | Some rank_num => <["rank" := VStr (strip (text rank_num))]> c
      end
  end.

Definition set_text (field tag class_ : string) (item : node) (c : card)
  : card :=
  match find tag (Some class_) item with
  | None => c
  | Some p => <[field := VStr (strip (text p))]> c
  end.

Definition set_features (item : node) (c : card) : card :=
  <["features" :=
      VList ((λ recm, VStr (strip (text recm))) <$>
               find_all "li" (Some "p-itemBox_recm_item") item)]> c.

(** The body of [for item in card_items], up to [cards.append(card)]. *)
Definition extract_item (item : node) : option card :=
  c ← set_image_url item ∅;
  c ← foldM spec_step c (find_all "li" (Some "p-itemBox_data_spec_list") item);
  c ← set_name item c;
  let c := set_rank item c in
  let c := set_text "introduction_title" "p" "p-itemBox_catch_ttl" item c in
  let c := set_text "introduction_text" "p" "p-itemBox_catch_txt" item c in
  Some (set_features item c).

Definition extract_page (soup : node) : option (list card) :=
  mapM extract_item (find_all "li" (Some "p-planSearchList_item") soup).

(** What one request meets.  The page is given as the tree html.parser
    builds from the decoded body. *)
Inductive response :=
  | GetRaises
      (* session.get, or entering its context, raises *)
  | TextRaises
      (* response.text() raises something other than UnicodeDecodeError *)
  | Decoded (soup : node)
      (* response.text() returns *)
  | Undecodable (cp932 : option node)
      (* UnicodeDecodeError; then response.read() raises ([None]) or its
         bytes are decoded as cp932, errors ignored *).

(** [except Exception] turns every failure into the empty list. *)
Definition get_card_info (r : response) : list card :=
  match r with
  | GetRaises | TextRaises | Undecodable None => []
  | Decoded soup | Undecodable (Some soup) => default [] (extract_page soup)
  end.

(** ** c.py: the page group scheduler and main *)

Definition base_url : string := "https://kakaku.com/card/list/?cc_page=".

Definition page_url (page : Z) : string := base_url +:+ pretty page.

(** The network: what the [i]-th request of the run, for [url], meets. *)
Variable session : nat → string → response.

(** [asyncio.gather] returns the results in the order of the tasks.
    [sent] counts the requests of the run made before this group. *)
Definition process_page_group (sent : nat) (pages : list Z) : list card :=
  mjoin (imap (λ i page, get_card_info (session (sent + i)%nat (page_url page)))
           pages).

Definition total_pages : Z := 114.
Definition group_size : Z := 5.
(** [math.ceil(total_pages / group_size)] *)
Definition num_groups : Z := (total_pages + group_size - 1) `div` group_size.

Definition group_pages (group : Z) : list Z :=
  let start_page := group * group_size + 1 in
  let end_page := Z.min ((group + 1) * group_size) total_pages in
  seqZ start_page (end_page + 1 - start_page).

(** One turn of [for group in range(num_groups)]; the state is the number
    of requests sent and [all_cards]. *)
Definition group_step (st : nat * list card) (group : Z) : nat * list card :=
  let pages := group_pages group in
  (st.1 + length pages, st.2 ++ process_page_group st.1 pages)%nat.

Definition scrape_all : list card :=
  (foldl group_step (0%nat, []) (seqZ 0 num_groups)).2.

(** [sys.argv]: no argument, or one argument together with the value of
    [[int(p.strip()) for p in sys.argv[1].split(',')]], which is [None]
    when [int] raises ValueError. *)
Inductive cli :=
  | NoArgument
  | PageArgument (arg : string) (pages : option (list Z)).

(** [s.replace(",", "_")] *)
Fixpoint replace_commas (s : string) : string :=
  match s with
  | EmptyString => EmptyString
  | String c rest =>
      String (if decide (c = ","%char) then "_"%char else c) (replace_commas rest)
  end.

Definition pages_file (arg : string) : string :=
  "credit_cards_pages_" +:+ replace_commas arg +:+ ".json".

Definition default_file : string := "data/credit_cards_all.json".

(** The tail of main: merge into a non-empty store, or stamp every scraped
    card and keep the list as it is. *)
Definition merged_cards (existing_cards : dict card) (all_cards : list card)
  (now : string) : option (list card) :=
  match existing_cards with
  | _ :: _ => merge_cards existing_cards all_cards now
  | [] => Some (stamp now <$> all_cards)
  end.

Inductive outcome :=
  | UsageError
      (* the ValueError branch: two messages and [return] *)
  | Crashed
      (* an exception leaves main *)
  | Written (output_file : string) (cards : list card).

(** [disk] is what each path holds when main starts; [now] is the value of
    the one [datetime.now().isoformat()] the run evaluates.  The store is
    loaded and merged first; [open(output_file, 'w')] comes last and raises
    when the directory is missing. *)
Definition save (disk : string → store_file) (now : string)
  (output_file : string) (all_cards : list card) : outcome :=
  match merged_cards (load_existing_cards (disk output_file)) all_cards now with
  | Some cards =>
      if opens_for_writing (disk output_file) then Written output_file cards
      else Crashed
  | None => Crashed
  end.

(** The scraping half of main: the output path and [all_cards];
    [None] is the ValueError branch. *)
Definition scrape (argv : cli) : option (string * list card) :=
  match argv with
  | PageArgument _ None => None
  | PageArgument arg (Some pages) =>
      Some (pages_file arg, process_page_group 0 pages)
  | NoArgument => Some (default_file, scrape_all)
  end.

Definition main (argv : cli) (disk : string → store_file) (now : string)
  : outcome :=
  match scrape argv with
  | None => UsageError
  | Some (output_file, all_cards) => save disk now output_file all_cards
  end.
End extractor.

(** ** d.py: the image downloader *)

(** [os.path.basename]: the text after the last slash. *)
Fixpoint basename_from (acc p : string) : string :=
  match p with
  | EmptyString => acc
  | String c rest =>
      if decide (c = "/"%char) then basename_from rest rest
      else basename_from acc rest
  end.

Definition basename (p : string) : string := basename_from p p.

Definition ends_with (suffix s : string) : bool :=
  let n := String.length s in
  let k := String.length suffix in
  (k <=? n)%nat && String.eqb (String.substring (n - k) k s) suffix.

(** A name that [glob] returns for one of [*.png], [*.jpg], [*.jpeg],
    [*.gif]: the star does not match a leading dot. *)
Definition glob_matches (name : string) : bool :=
  negb (String.prefix "." name) &&
  (ends_with ".png" name || ends_with ".jpg" name ||
   ends_with ".jpeg" name || ends_with ".gif" name).

(** [listing] is the names in the directory. *)
Definition load_existing_images (listing : list string) : gset string :=
  list_to_set (filter (λ name, glob_matches name = true) listing).

(** [needle in s] on two strings. *)
Definition contains (needle s : string) : bool :=
  bool_decide (is_Some (String.index 0 needle s)).

Section downloader.
(** [urlparse(url).path]; [None] when urlparse raises ValueError. *)
Variable url_path : string → option string.

Definition get_filename_from_url (url : string) : option string :=
  basename <$> url_path url.

(** [urls.add(v)]: a list or a dict is unhashable, TypeError. *)
Definition add_url (urls : gset string) (v : value) : option (gset string) :=
  match v with
  | VStr url => Some ({[url]} ∪ urls)
  | _ => None
  end.

(** What [for brand in card['brands']] iterates over: the elements of a
    list, the keys of a dict, the characters of a string. *)
Definition iterate (v : value) : list value :=
  match v with
  | VList l => l
  | VDict d => VStr <$> (map_to_list d).*1
  | VStr s => (λ c, VStr (String c EmptyString)) <$> String.list_ascii_of_string s
  end.

(** [if 'image_url' in brand: brand_urls.add(brand['image_url'])].  On a
    string or a list that passes the test, the subscript raises
    TypeError. *)
Definition add_brand (brand_urls : gset string) (brand : value)
  : option (gset string) :=
  match brand with
  | VDict d =>
      match d !! "image_url" with
      | None => Some brand_urls
      | Some v => add_url brand_urls v
      end
  | VStr s => if contains "image_url" s then None else Some brand_urls
  | VList l =>
      if existsb (λ x, match x with
                       | VStr s => String.eqb s "image_url"
                       | _ => false
                       end) l
      then None else Some brand_urls
  end.

(** The body of [for card in cards]; the state is
    [(brand_urls, card_urls)]. *)
Definition card_step (st : gset string * gset string) (c : card)
  : option (gset string * gset string) :=
  card_urls ← match c !! "image_url" with
              | None => Some st.2
              | Some v => add_url st.2 v
              end;
  brand_urls ← match c !! "brands" with
               | None => Some st.1
               | Some v => foldM add_brand st.1 (iterate v)
               end;
  Some (brand_urls, card_urls).

Definition collect_urls (cards : list card)
  : option (gset string * gset string) :=
  foldM card_step (∅, ∅) cards.

(** [for url in urls: if filename not in existing: new_urls.append(url)].
    A Python set is iterated in an order of its own; [elements] is one. *)
Definition filter_step (existing : gset string) (new_urls : list string)
  (url : string) : option (list string) :=
  filename ← get_filename_from_url url;
  Some (if decide (filename ∈ existing) then new_urls else new_urls ++ [url]).

Definition new_urls (existing urls : gset string) : option (list string) :=
  foldM (filter_step existing) [] (elements urls).

(** One [download_image(session, url, save_path)] task.  The target
    directory exists since the start of [process_cards], so the task
    reaches [session.get(url)]: one request each. *)
Definition download_tasks (directory : string) (urls : list string)
  : option (list (string * string)) :=
  mapM (λ url, filename ← get_filename_from_url url;
               Some (url, directory +:+ "/" +:+ filename)) urls.

Inductive run :=
  | LoadError
      (* the JSON file does not load: message and [return] *)
  | Raised
      (* an exception leaves [process_cards] before any download *)
  | Downloaded (brand_tasks card_tasks : list (string * string)).

(** [brands], [cards_dir]: the names in images/brands and images/cards;
    [store]: what [json.load] returns, [None] when the [try] fails. *)
Definition process_cards (brands cards_dir : list string)
  (store : option (list card)) : run :=
  let existing_brand_images := load_existing_images brands in
  let existing_card_images := load_existing_images cards_dir in
  match store with
  | None => LoadError
  | Some cards =>
      default Raised (
        '(brand_urls, card_urls) ← collect_urls cards;
        new_brand_urls ← new_urls existing_brand_images brand_urls;
        new_card_urls ← new_urls existing_card_images card_urls;
        brand_tasks ← download_tasks "images/brands" new_brand_urls;
        card_tasks ← download_tasks "images/cards" new_card_urls;
        Some (Downloaded brand_tasks card_tasks))
  end.

(** The URLs requested by a run. *)
Definition requests (r : run) : list string * list string :=
  match r with
  | Downloaded brand_tasks card_tasks => (brand_tasks.*1, card_tasks.*1)
  | _ => ([], [])
  end.
End downloader.

(** * Properties *)

(** ** Loops and dicts *)

Lemma foldM_app {A B : Type} (f : B → A → option B) (acc : B) (l1 l2 : list A) :
  foldM f acc (l1 ++ l2) = foldM f acc l1 ≫= λ acc', foldM f acc' l2.
Proof.
  revert acc. induction l1 as [|x l1 IH]; intros acc; simpl; [done|].
  destruct (f acc x) as [acc'|]; simpl; [apply IH | done].
Qed.

Section dict_facts.
Context {V : Type}.
Implicit Types (d : list (string * V)) (k : string) (v : V).

Lemma dict_get_set_eq k v d : dict_get k (dict_set k v d) = Some v.
Proof.
  induction d as [|[k' v'] d IH]; simpl.
  - by rewrite decide_True.
  - destruct (decide (k = k')) as [->|Hne]; simpl.
    + by rewrite decide_True.
    + by rewrite decide_False.
Qed.

Lemma dict_get_set_ne k k' v d :
  k ≠ k' → dict_get k' (dict_set k v d) = dict_get k' d.
Proof.
  intros Hne. induction d as [|[k0 v0] d IH]; simpl.
  - by rewrite decide_False.
  - destruct (decide (k = k0)) as [->|Hk]; simpl.
    + by rewrite !decide_False.
    + destruct (decide (k' = k0)); [done | apply IH].
Qed.

Lemma dict_get_values k v d : dict_get k d = Some v → v ∈ dict_values d.
Proof.
  unfold dict_values. induction d as [|[k' v'] d IH]; simpl; [done|].
  destruct (decide (k = k')); intros H.
  - injection H as ->. apply list_elem_of_here.
  - apply list_elem_of_further, IH, H.
Qed.

End dict_facts.

(** ** The merge engine, one name at a time *)

(** [card['name'] == n] *)
Definition has_name (n : string) (c : card) : bool :=
  match c !! "name" with
  | Some (VStr m) => bool_decide (m = n)
  | _ => false
  end.

(** The name of [c], when it has one, can be a dict key. *)
Definition name_ok (c : card) : bool :=
  match c !! "name" with
  | Some (VList _) | Some (VDict _) => false
  | _ => true
  end.

(** What one new record named [n] does to the entry of [n]. *)
Definition absorb (current_time : string) (entry : option card) (c : card)
  : option card :=
  match entry with
  | Some old => Some (<["updated_at" := VStr current_time]> (c ∪ old))
  | None => Some (stamp current_time c)
  end.

(** The entry of [n] after a batch: only the records named [n] count. *)
Definition entry_after (current_time n : string) (entry : option card)
  (new_cards : list card) : option card :=
  foldl (λ e c, if has_name n c then absorb current_time e c else e)
    entry new_cards.

Lemma has_name_ok n c : has_name n c = true → name_ok c = true.
Proof. unfold has_name, name_ok. by destruct (c !! "name") as [[]|]. Qed.

Lemma merge_step_entry T n merged c :
  name_ok c = true →
  ∃ merged', merge_step T merged c = Some merged' ∧
    dict_get n merged' =
      if has_name n c then absorb T (dict_get n merged) c else dict_get n merged.
Proof.
  unfold name_ok, has_name, merge_step.
  destruct (c !! "name") as [[m| |]|]; intros Hok; try done.
  - destruct (dict_get m merged) as [old|] eqn:Hm; eexists; (split; [done|]);
      case_bool_decide as Hmn; subst;
      rewrite ?dict_get_set_eq, ?Hm; try done;
      by rewrite dict_get_set_ne.
  - by eexists.
Qed.

Lemma merge_loop_entry T n new_cards merged :
  Forall (λ c, name_ok c = true) new_cards →
  ∃ merged', merge_loop T merged new_cards = Some merged' ∧
    dict_get n merged' = entry_after T n (dict_get n merged) new_cards.
Proof.
  unfold merge_loop, entry_after. intros Hok. revert merged.
  induction Hok as [|c new_cards Hc _ IH]; intros merged; simpl.
  - by eexists.
  - destruct (merge_step_entry T n merged c Hc) as (m1 & -> & Hget). simpl.
    destruct (IH m1) as (m2 & -> & Hget2). eexists; split; [done|].
    by rewrite Hget2, Hget.
Qed.

Lemma merge_cards_loop existing new_cards T merged :
  merge_loop T existing new_cards = Some merged →
  merge_cards existing new_cards T = Some (dict_values merged).
Proof. unfold merge_cards. by intros ->. Qed.

Lemma entry_after_app T n e l1 l2 :
  entry_after T n e (l1 ++ l2) = entry_after T n (entry_after T n e l1) l2.
Proof. apply foldl_app. Qed.

Lemma entry_after_others T n e l :
  Forall (λ c, has_name n c = false) l → entry_after T n e l = e.
Proof.
  unfold entry_after. intros H. revert e.
  induction H as [|c l Hc _ IH]; intros e; simpl; [done|]. by rewrite Hc.
Qed.

Lemma entry_after_updated T n r l :
  r !! "updated_at" = Some (VStr T) →
  ∃ r', entry_after T n (Some r) l = Some r' ∧
    r' !! "updated_at" = Some (VStr T).
Proof.
  unfold entry_after. revert r.
  induction l as [|c l IH]; intros r Hr; simpl; [by eexists|].
  destruct (has_name n c); [|by apply IH].
  apply IH. apply lookup_insert_eq.
Qed.

Lemma entry_after_hit T n e l :
  Exists (λ c, has_name n c = true) l →
  ∃ r, entry_after T n e l = Some r ∧ r !! "updated_at" = Some (VStr T).
Proof.
  intros H. revert e. induction H as [c l Hc|c l _ IH]; intros e.
  - unfold entry_after. simpl. rewrite Hc.
    destruct e as [old|]; simpl; apply entry_after_updated;
      unfold stamp; apply lookup_insert_eq.
  - unfold entry_after. simpl. apply IH.
Qed.

Lemma entry_after_created T n old l :
  Forall (λ c, has_name n c = true → c !! "created_at" = None) l →
  ∃ r, entry_after T n (Some old) l = Some r ∧
    r !! "created_at" = old !! "created_at".
Proof.
  unfold entry_after. intros H. revert old.
  induction H as [|c l Hc _ IH]; intros old; simpl; [by eexists|].
  destruct (has_name n c) eqn:Hn; [|by apply IH].
  destruct (IH (<["updated_at" := VStr T]> (c ∪ old))) as (r & -> & Hr).
  eexists; split; [done|]. rewrite Hr.
  rewrite lookup_insert_ne by done. apply lookup_union_r. by apply Hc.
Qed.

(** ** The order of the mapping *)

Section dict_order.
Context {V : Type}.
Implicit Types (d : list (string * V)) (k : string) (v : V).

Lemma dict_get_is_Some k d : is_Some (dict_get k d) ↔ k ∈ d.*1.
Proof.
  induction d as [|[k' v'] d IH]; simpl.
  - split; [by intros [? ?] | by intros ?%elem_of_nil].
  - rewrite elem_of_cons. destruct (decide (k = k')) as [->|Hne].
    + split; [by left | by eexists].
    + rewrite IH. split; [by right | by intros [?|?]].
Qed.

Lemma dict_get_None k d : dict_get k d = None ↔ k ∉ d.*1.
Proof. rewrite <- dict_get_is_Some, eq_None_not_Some. done. Qed.

Lemma dict_set_present k v d : k ∈ d.*1 → (dict_set k v d).*1 = d.*1.
Proof.
  induction d as [|[k' v'] d IH]; simpl; [by intros ?%elem_of_nil|].
  destruct (decide (k = k')) as [->|Hne]; simpl; [done|].
  rewrite elem_of_cons. intros [?|Hin]; [done|]. f_equal. by apply IH.
Qed.

Lemma dict_set_fresh k v d : k ∉ d.*1 → dict_set k v d = d ++ [(k, v)].
Proof.
  induction d as [|[k' v'] d IH]; simpl; [done|].
  rewrite not_elem_of_cons. intros [Hne Hin].
  rewrite decide_False by done. f_equal. by apply IH.
Qed.

Lemma dict_set_lookup_ne k k' v v' d (i : nat) :
  k ≠ k' → d !! i = Some (k', v') → dict_set k v d !! i = Some (k', v').
Proof.
  intros Hne. revert i. induction d as [|[k0 v0] d IH]; intros i; [done|].
  simpl. destruct (decide (k = k0)) as [->|Hk]; destruct i as [|i]; simpl;
    try done; [by intros [= <- <-] | apply IH].
Qed.

Lemma dict_set_entries (P : string * V → Prop) k v d :
  P (k, v) → Forall P d → Forall P (dict_set k v d).
Proof.
  intros Hv. induction d as [|[k' v'] d IH]; simpl.
  - intros _. by constructor.
  - intros Hd. apply Forall_cons in Hd as [Hv' Hd].
    destruct (decide (k = k')); constructor; auto.
Qed.

Lemma dict_set_same k v d : dict_get k d = Some v → dict_set k v d = d.
Proof.
  induction d as [|[k' v'] d IH]; simpl; [done|].
  destruct (decide (k = k')) as [->|Hne]; [by intros [= ->]|].
  intros H. f_equal. by apply IH.
Qed.
End dict_order.

(** The names a batch adds to a mapping whose names are [seen], in the
    order of their first appearance. *)
Fixpoint first_names (seen : list string) (new_cards : list card)
  : list string :=
  match new_cards with
  | [] => []
  | c :: rest =>
      match c !! "name" with
      | Some (VStr n) =>
          if decide (n ∈ seen) then first_names seen rest
          else n :: first_names (seen ++ [n]) rest
      | _ => first_names seen rest
      end
  end.

(** Each entry is keyed by the name of its record, and no name is keyed
    twice. *)
Definition well_keyed (d : dict card) : Prop :=
  NoDup d.*1 ∧ Forall (λ e, e.2 !! "name" = Some (VStr e.1)) d.

Lemma first_names_NoDup seen new_cards :
  NoDup seen → NoDup (seen ++ first_names seen new_cards).
Proof.
  revert seen. induction new_cards as [|c rest IH]; intros seen Hseen; simpl.
  - by rewrite app_nil_r.
  - destruct (c !! "name") as [[n| |]|]; auto.
    destruct (decide (n ∈ seen)) as [Hin|Hin]; auto.
    rewrite cons_middle, (assoc_L (++)). apply IH.
    apply NoDup_app. split; [done|]. split; [|apply NoDup_singleton].
    intros x Hx ->%list_elem_of_singleton. done.
Qed.

Lemma merge_step_keys T merged c merged' :
  merge_step T merged c = Some merged' →
  merged'.*1 = merged.*1 ++ first_names merged.*1 [c].
Proof.
  unfold merge_step. simpl.
  destruct (c !! "name") as [[n| |]|]; try done;
    [|intros [= <-]; by rewrite app_nil_r].
  destruct (dict_get n merged) as [old|] eqn:Hn; intros [= <-].
  - assert (n ∈ merged.*1) as Hin by (apply dict_get_is_Some; by eexists).
    rewrite decide_True by done. by rewrite dict_set_present, app_nil_r.
  - apply dict_get_None in Hn. rewrite decide_False by done.
    by rewrite dict_set_fresh, fmap_app.
Qed.

Lemma first_names_cons seen c rest :
  first_names seen (c :: rest)
  = first_names seen [c] ++ first_names (seen ++ first_names seen [c]) rest.
Proof.
  simpl. destruct (c !! "name") as [[n| |]|]; rewrite ?app_nil_r; try done.
  destruct (decide (n ∈ seen)); by rewrite ?app_nil_r.
Qed.

Lemma merge_loop_keys T new_cards merged merged' :
  merge_loop T merged new_cards = Some merged' →
  merged'.*1 = merged.*1 ++ first_names merged.*1 new_cards.
Proof.
  unfold merge_loop. revert merged.
  induction new_cards as [|c rest IH]; intros merged; cbn [foldM].
  - intros [= <-]. simpl. by rewrite app_nil_r.
  - rewrite first_names_cons.
    destruct (merge_step T merged c) as [m1|] eqn:Hstep; [|done].
    intros Hrest. rewrite (IH m1 Hrest), (merge_step_keys _ _ _ _ Hstep).
    by rewrite (assoc_L (++)).
Qed.

Lemma merge_step_lookup_ne T merged c merged' (i : nat) n old :
  merge_step T merged c = Some merged' → has_name n c = false →
  merged !! i = Some (n, old) → merged' !! i = Some (n, old).
Proof.
  unfold merge_step, has_name.
  destruct (c !! "name") as [[m| |]|]; try done; [|by intros [= <-]].
  intros Hstep Hne%bool_decide_eq_false Hi.
  destruct (dict_get m merged); injection Hstep as <-;
    by apply dict_set_lookup_ne.
Qed.

Lemma merge_loop_returns T new_cards merged :
  Forall (λ c, name_ok c = true) new_cards →
  is_Some (merge_loop T merged new_cards).
Proof.
  intros Hok. destruct (merge_loop_entry T "" new_cards merged Hok)
    as (merged' & -> & _). by eexists.
Qed.

Lemma dict_get_lookup {V : Type} (d : list (string * V)) (i : nat) k v :
  NoDup d.*1 → d !! i = Some (k, v) → dict_get k d = Some v.
Proof.
  revert i. induction d as [|[k' v'] d IH]; intros i Hnodup Hi; [done|].
  rewrite fmap_cons, NoDup_cons in Hnodup. destruct Hnodup as [Hk' Hnodup].
  simpl. destruct i as [|i]; simpl in Hi.
  - injection Hi as -> ->. by rewrite decide_True.
  - destruct (decide (k = k')) as [->|Hne]; [|by eapply IH].
    destruct Hk'. simpl. apply list_elem_of_fmap. exists (k', v).
    split; [done|]. by eapply list_elem_of_lookup_2.
Qed.

(** The entry a name has in the mapping keeps its position through the
    loop, and holds what the lookup of the name returns. *)
Lemma merge_loop_position T new_cards existing merged (i : nat) n old :
  NoDup existing.*1 → existing !! i = Some (n, old) →
  merge_loop T existing new_cards = Some merged →
  ∃ r, merged !! i = Some (n, r) ∧ dict_get n merged = Some r.
Proof.
  intros Hnodup Hi Hloop.
  pose proof (merge_loop_keys _ _ _ _ Hloop) as Hkeys.
  assert (merged.*1 !! i = Some n) as Hkey.
  { rewrite Hkeys. apply lookup_app_l_Some. by rewrite list_lookup_fmap, Hi. }
  rewrite list_lookup_fmap in Hkey.
  destruct (merged !! i) as [[n' r]|] eqn:Hm; [|done].
  injection Hkey as ->. exists r. split; [done|].
  apply (dict_get_lookup merged i); [|done].
  rewrite Hkeys. by apply first_names_NoDup.
Qed.

(** ** Sample records *)

Definition t0 : string := "2024-01-01T09:00:00.000000".
Definition t1 : string := "2024-06-01T12:30:00.000000".

(** [{"name": "Card A", "annual_fee": "X", "created_at": t0, "updated_at": t0}] *)
Definition stored_card_a : card :=
  <["name" := VStr "Card A"]> (<["annual_fee" := VStr "X"]>
    (<["created_at" := VStr t0]> (<["updated_at" := VStr t0]> ∅))).

(** [{"name": "Card A", "annual_fee": "Y"}] *)
Definition scraped_card_a : card :=
  <["name" := VStr "Card A"]> (<["annual_fee" := VStr "Y"]> ∅).

(** [{"name": "Card B", "annual_fee": "Z"}] *)
Definition scraped_card_b : card :=
  <["name" := VStr "Card B"]> (<["annual_fee" := VStr "Z"]> ∅).

(** [{"name": "Card A", "created_at": "1999-12-31T00:00:00"}] *)
Definition scraped_card_a_dated : card :=
  <["name" := VStr "Card A"]> (<["created_at" := VStr "1999-12-31T00:00:00"]> ∅).

(** [{"features": []}]: what an item without a name block yields. *)
Definition nameless_card : card := <["features" := VList []]> ∅.

(** ** C1 *)

(** C1, as amended.  When a batch brings a record for a stored name [n],
    the merge returns, and in the mapping the loop builds the record of [n]
    has the merge timestamp as its [updated_at]; it stands in the returned
    list where the stored record stood.  Its [created_at] is the stored one
    provided the batch records named [n] bring no [created_at] of their
    own.  Every name of the batch ends with that same [updated_at]: the
    timestamp is read once.  (All names of the batch are text, so the merge
    does not raise.) *)
Theorem merge_keeps_created_at (existing : dict card) (new_cards : list card)
    (current_time n : string) (old : card) :
  dict_get n existing = Some old →
  Forall (λ c, name_ok c = true) new_cards →
  Exists (λ c, has_name n c = true) new_cards →
  ∃ merged r,
    merge_loop current_time existing new_cards = Some merged ∧
    merge_cards existing new_cards current_time = Some (dict_values merged) ∧
    dict_get n merged = Some r ∧
    r !! "updated_at" = Some (VStr current_time) ∧
    (Forall (λ c, has_name n c = true → c !! "created_at" = None) new_cards →
     r !! "created_at" = old !! "created_at") ∧
    (∀ i : nat, NoDup existing.*1 → existing !! i = Some (n, old) →
       dict_values merged !! i = Some r) ∧
    ∀ m, Exists (λ c, has_name m c = true) new_cards →
      ∃ r', dict_get m merged = Some r' ∧
        r' !! "updated_at" = Some (VStr current_time).
Proof.
  intros Hold Hok Hhit.
  destruct (merge_loop_entry current_time n new_cards existing Hok)
    as (merged & Hloop & Hn).
  rewrite Hold in Hn.
  destruct (entry_after_hit current_time n (Some old) new_cards Hhit)
    as (r & Hr & Hupd).
  rewrite Hr in Hn.
  exists merged, r. split; [done|]. split; [by apply merge_cards_loop|].
  split; [done|]. split; [done|]. split; [|split].
  - intros Hraw.
    destruct (entry_after_created current_time n old new_cards Hraw)
      as (r2 & Hr2 & Hcre).
    rewrite Hr in Hr2. by injection Hr2 as <-.
  - intros i Hnodup Hi.
    destruct (merge_loop_position _ _ _ _ _ _ _ Hnodup Hi Hloop)
      as (r' & Hi' & Hget).
    rewrite Hn in Hget. injection Hget as <-.
    unfold dict_values. by rewrite list_lookup_fmap, Hi'.
  - intros m Hm.
    destruct (merge_loop_entry current_time m new_cards existing Hok)
      as (merged' & Hloop' & Hm').
    rewrite Hloop in Hloop'. injection Hloop' as <-. rewrite Hm'.
    by apply entry_after_hit.
Qed.

Lemma merge_keeps_created_at_witness :
  ∃ merged r,
    merge_loop t1 [("Card A", stored_card_a)] [scraped_card_a; scraped_card_b]
    = Some merged ∧
    merge_cards [("Card A", stored_card_a)] [scraped_card_a; scraped_card_b] t1
      = Some (dict_values merged) ∧
    dict_get "Card A" merged = Some r ∧
    r !! "updated_at" = Some (VStr t1) ∧
    (Forall (λ c, has_name "Card A" c = true → c !! "created_at" = None)
       [scraped_card_a; scraped_card_b] →
     r !! "created_at" = stored_card_a !! "created_at") ∧
    (∀ i : nat, NoDup [("Card A", stored_card_a)].*1 →
       [("Card A", stored_card_a)] !! i = Some ("Card A", stored_card_a) →
       dict_values merged !! i = Some r) ∧
    ∀ m, Exists (λ c, has_name m c = true) [scraped_card_a; scraped_card_b] →
      ∃ r', dict_get m merged = Some r' ∧ r' !! "updated_at" = Some (VStr t1).
Proof.
  apply (merge_keeps_created_at [("Card A", stored_card_a)]
           [scraped_card_a; scraped_card_b] t1 "Card A" stored_card_a).
  - reflexivity.
  - repeat constructor.
  - apply Exists_cons_hd. reflexivity.
Defined.

(** C1 as stated: for every mapping and every batch. *)
Definition created_at_always_kept : Prop :=
  ∀ (existing : dict card) (new_cards : list card) (current_time n : string)
    (old c : card),
    dict_get n existing = Some old → c ∈ new_cards → has_name n c = true →
    ∃ merged r,
      merge_cards existing new_cards current_time = Some (dict_values merged) ∧
      dict_get n merged = Some r ∧
      r !! "created_at" = old !! "created_at" ∧
      r !! "updated_at" = Some (VStr current_time).

(** C1 fails where a new record carries a [created_at] field:
    [merged[name].update(card)] overwrites the stored one.  Stored
    [{"Card A": stored_card_a}], batch [[scraped_card_a_dated]]. *)
Lemma created_at_overwritten_by_update :
  merge_cards [("Card A", stored_card_a)] [scraped_card_a_dated] t1
    = Some [<["updated_at" := VStr t1]> (scraped_card_a_dated ∪ stored_card_a)] ∧
  (<["updated_at" := VStr t1]> (scraped_card_a_dated ∪ stored_card_a))
    !! "created_at" = Some (VStr "1999-12-31T00:00:00") ∧
  stored_card_a !! "created_at" = Some (VStr t0) ∧
  ¬ created_at_always_kept.
Proof.
  split; [reflexivity|]. split; [reflexivity|]. split; [reflexivity|].
  intros H.
  destruct (H [("Card A", stored_card_a)] [scraped_card_a_dated] t1 "Card A"
              stored_card_a scraped_card_a_dated)
    as (merged & r & Hm & Hr & Hc & _).
  - reflexivity.
  - apply list_elem_of_here.
  - reflexivity.
  - assert (merge_cards [("Card A", stored_card_a)] [scraped_card_a_dated] t1
      = Some [<["updated_at" := VStr t1]> (scraped_card_a_dated ∪ stored_card_a)])
      as Heq by reflexivity.
    rewrite Heq in Hm. injection Hm as Hm.
    destruct merged as [|[k v] [|? ?]]; try discriminate.
    unfold dict_values in Hm. simpl in Hm. injection Hm as <-.
    simpl in Hr. destruct (decide ("Card A" = k)); [|done].
    injection Hr as <-.
    assert ((<["updated_at" := VStr t1]> (scraped_card_a_dated ∪ stored_card_a))
              !! "created_at" = Some (VStr "1999-12-31T00:00:00")) as H1
      by reflexivity.
    assert (stored_card_a !! "created_at" = Some (VStr t0)) as H2 by reflexivity.
    rewrite H1, H2 in Hc. discriminate.
Qed.

(** ** C2 *)

(** C2.  A new record [c] whose name [n] is neither in the mapping nor
    earlier in the batch is inserted as [stamp current_time c]: its
    [created_at] and [updated_at] are both the merge timestamp.  Whatever
    follows in the batch, the record of [n] ends with that [updated_at], and
    with that [created_at] too unless a later record named [n] brings one. *)
Theorem merge_inserts_stamped (existing : dict card) (pre : list card)
    (c : card) (current_time n : string) :
  dict_get n existing = None →
  Forall (λ p, name_ok p = true) pre →
  Forall (λ p, has_name n p = false) pre →
  has_name n c = true →
  (∃ merged,
     merge_cards existing (pre ++ [c]) current_time = Some (dict_values merged) ∧
     dict_get n merged = Some (stamp current_time c) ∧
     stamp current_time c ∈ dict_values merged) ∧
  stamp current_time c !! "created_at" = Some (VStr current_time) ∧
  stamp current_time c !! "updated_at" = Some (VStr current_time) ∧
  ∀ post, Forall (λ p, name_ok p = true) post →
    ∃ merged r,
      merge_cards existing (pre ++ c :: post) current_time
        = Some (dict_values merged) ∧
      dict_get n merged = Some r ∧
      r !! "updated_at" = Some (VStr current_time) ∧
      (Forall (λ p, has_name n p = true → p !! "created_at" = None) post →
       r !! "created_at" = Some (VStr current_time)).
Proof.
  intros Hnew Hok Hpre Hc.
  assert (∀ post, entry_after current_time n (dict_get n existing)
            (pre ++ c :: post)
          = entry_after current_time n (Some (stamp current_time c)) post)
    as Hentry.
  { intros post. rewrite entry_after_app.
    rewrite (entry_after_others _ _ _ pre Hpre), Hnew. unfold entry_after. simpl. by rewrite Hc. }
  assert (stamp current_time c !! "updated_at" = Some (VStr current_time))
    as Hupd by apply lookup_insert_eq.
  assert (stamp current_time c !! "created_at" = Some (VStr current_time))
    as Hcre.
  { unfold stamp. rewrite lookup_insert_ne by done. apply lookup_insert_eq. }
  split; [|split; [done|split; [done|]]].
  - destruct (merge_loop_entry current_time n (pre ++ [c]) existing)
      as (merged & Hloop & Hn).
    { apply Forall_app. split; [done|]. constructor; [|done].
      by eapply has_name_ok. }
    rewrite Hentry in Hn. exists merged.
    split; [by apply merge_cards_loop|]. split; [done|].
    by eapply dict_get_values.
  - intros post Hpost.
    destruct (merge_loop_entry current_time n (pre ++ c :: post) existing)
      as (merged & Hloop & Hn).
    { apply Forall_app. split; [done|]. constructor; [|done].
      by eapply has_name_ok. }
    rewrite Hentry in Hn.
    destruct (entry_after_updated current_time n (stamp current_time c) post Hupd)
      as (r & Hr & Hru).
    exists merged, r. split; [by apply merge_cards_loop|].
    split; [by rewrite Hn|]. split; [done|].
    intros Hraw.
    destruct (entry_after_created current_time n (stamp current_time c) post Hraw)
      as (r2 & Hr2 & Hrc).
    rewrite Hr in Hr2. injection Hr2 as <-. by rewrite Hrc.
Qed.

Lemma merge_inserts_stamped_witness :
  (∃ merged,
     merge_cards [("Card A", stored_card_a)] ([scraped_card_a] ++ [scraped_card_b]) t1
       = Some (dict_values merged) ∧
     dict_get "Card B" merged = Some (stamp t1 scraped_card_b) ∧
     stamp t1 scraped_card_b ∈ dict_values merged) ∧
  stamp t1 scraped_card_b !! "created_at" = Some (VStr t1) ∧
  stamp t1 scraped_card_b !! "updated_at" = Some (VStr t1) ∧
  ∀ post, Forall (λ p, name_ok p = true) post →
    ∃ merged r,
      merge_cards [("Card A", stored_card_a)]
        ([scraped_card_a] ++ scraped_card_b :: post) t1
        = Some (dict_values merged) ∧
      dict_get "Card B" merged = Some r ∧
      r !! "updated_at" = Some (VStr t1) ∧
      (Forall (λ p, has_name "Card B" p = true → p !! "created_at" = None) post →
       r !! "created_at" = Some (VStr t1)).
Proof.
  apply (merge_inserts_stamped [("Card A", stored_card_a)] [scraped_card_a]
           scraped_card_b t1 "Card B").
  - reflexivity.
  - repeat constructor.
  - repeat constructor.
  - reflexivity.
Defined.

(** ** C4 *)

(** C4.  When [c] is the one record of the batch named [n] and [n] is
    stored as [old], the merged record of [n] is [old] overwritten by [c],
    field by field, with [updated_at] refreshed: every field of [c] other
    than [updated_at] has the value [c] gives it, every field [c] lacks
    keeps the value [old] gives it, and [updated_at] is the merge
    timestamp. *)
Theorem merge_is_shallow_overwrite (existing : dict card) (pre post : list card)
    (c old : card) (current_time n : string) :
  dict_get n existing = Some old →
  has_name n c = true →
  Forall (λ p, name_ok p = true ∧ has_name n p = false) (pre ++ post) →
  ∃ merged r,
    merge_cards existing (pre ++ c :: post) current_time
      = Some (dict_values merged) ∧
    dict_get n merged = Some r ∧ r ∈ dict_values merged ∧
    r = <["updated_at" := VStr current_time]> (c ∪ old) ∧
    r !! "updated_at" = Some (VStr current_time) ∧
    ∀ field, field ≠ "updated_at" →
      (∀ v, c !! field = Some v → r !! field = Some v) ∧
      (c !! field = None → r !! field = old !! field).
Proof.
  intros Hold Hc Hothers.
  apply Forall_app in Hothers as [Hpre Hpost].
  destruct (merge_loop_entry current_time n (pre ++ c :: post) existing)
    as (merged & Hloop & Hn).
  { apply Forall_app. split.
    - eapply Forall_impl; [exact Hpre|]. by intros ? [? _].
    - constructor; [by eapply has_name_ok|].
      eapply Forall_impl; [exact Hpost|]. by intros ? [? _]. }
  assert (Forall (λ p, has_name n p = false) pre) as Hpre'
    by (eapply Forall_impl; [exact Hpre|]; by intros ? [_ ?]).
  assert (Forall (λ p, has_name n p = false) post) as Hpost'
    by (eapply Forall_impl; [exact Hpost|]; by intros ? [_ ?]).
  assert (entry_after current_time n (dict_get n existing) (pre ++ c :: post)
          = Some (<["updated_at" := VStr current_time]> (c ∪ old))) as Hentry.
  { rewrite entry_after_app, (entry_after_others _ _ _ pre Hpre'), Hold.
    change (entry_after current_time n (Some old) (c :: post))
      with (entry_after current_time n
              (if has_name n c then absorb current_time (Some old) c
               else Some old) post).
    rewrite Hc. apply (entry_after_others _ _ _ post Hpost'). }
  rewrite Hentry in Hn.
  exists merged, (<["updated_at" := VStr current_time]> (c ∪ old)).
  split; [by apply merge_cards_loop|]. split; [done|].
  split; [by eapply dict_get_values|]. split; [done|].
  split; [apply lookup_insert_eq|].
  intros field Hfield. rewrite lookup_insert_ne by done. split.
  - intros v Hv. by apply lookup_union_Some_l.
  - intros Hnone. by apply lookup_union_r.
Qed.

Lemma merge_is_shallow_overwrite_witness :
  ∃ merged r,
    merge_cards [("Card A", stored_card_a)]
      ([scraped_card_b] ++ scraped_card_a :: [nameless_card]) t1
      = Some (dict_values merged) ∧
    dict_get "Card A" merged = Some r ∧ r ∈ dict_values merged ∧
    r = <["updated_at" := VStr t1]> (scraped_card_a ∪ stored_card_a) ∧
    r !! "updated_at" = Some (VStr t1) ∧
    ∀ field, field ≠ "updated_at" →
      (∀ v, scraped_card_a !! field = Some v → r !! field = Some v) ∧
      (scraped_card_a !! field = None → r !! field = stored_card_a !! field).
Proof.
  apply (merge_is_shallow_overwrite [("Card A", stored_card_a)]
           [scraped_card_b] [nameless_card] scraped_card_a stored_card_a
           t1 "Card A").
  - reflexivity.
  - reflexivity.
  - repeat constructor.
Defined.

(** The scenario of the specification: fee "X" stored at [t0], fee "Y"
    scraped, merged at [t1]. *)
Example merge_scenario :
  ∃ r, merge_cards [("Card A", stored_card_a)] [scraped_card_a] t1 = Some [r] ∧
    r !! "annual_fee" = Some (VStr "Y") ∧
    r !! "created_at" = Some (VStr t0) ∧
    r !! "updated_at" = Some (VStr t1) ∧
    String.ltb t0 t1 = true.
Proof. eexists. repeat split; reflexivity. Qed.

(** ** C3 *)

Lemma merge_step_nameless T merged c :
  c !! "name" = None → merge_step T merged c = Some merged.
Proof. unfold merge_step. by intros ->. Qed.

Lemma merge_loop_named T merged new_cards :
  merge_loop T merged (filter (λ c, is_Some (c !! "name")) new_cards)
  = merge_loop T merged new_cards.
Proof.
  unfold merge_loop. revert merged.
  induction new_cards as [|c new_cards IH]; intros merged; [done|].
  rewrite filter_cons. destruct (decide (is_Some (c !! "name"))) as [Hc|Hc]; simpl.
  - destruct (merge_step T merged c); simpl; [apply IH | done].
  - rewrite merge_step_nameless; [apply IH|].
    by destruct (c !! "name"); [destruct Hc|].
Qed.

Lemma extract_page_length strip soup cards :
  extract_page strip soup = Some cards →
  length cards = length (find_all "li" (Some "p-planSearchList_item") soup).
Proof. unfold extract_page. intros H. symmetry. by eapply length_mapM. Qed.

(** A page with one list item that has no name block:
    [<li class="p-planSearchList_item"></li>]. *)
Definition page_with_bare_item : node :=
  Elem "[document]" [] ∅ [Elem "li" ["p-planSearchList_item"] ∅ []].

(** C3, as amended.  The merge engine ignores records without a name: the
    merge of a batch is the merge of its named records, and a batch of
    nameless records leaves the mapping as it was.  The extractor does not
    drop them: a page that parses yields one record for each list item,
    named or not. *)
Theorem nameless_records_skipped_by_merge_only (strip : string → string)
    (existing : dict card) (new_cards : list card) (current_time : string)
    (soup : node) :
  merge_cards existing (filter (λ c, is_Some (c !! "name")) new_cards) current_time
    = merge_cards existing new_cards current_time ∧
  (Forall (λ c, c !! "name" = None) new_cards →
   merge_cards existing new_cards current_time = Some (dict_values existing)) ∧
  (∀ cards, extract_page strip soup = Some cards →
     get_card_info strip (Decoded soup) = cards ∧
     length cards = length (find_all "li" (Some "p-planSearchList_item") soup)).
Proof.
  split; [|split].
  - unfold merge_cards. by rewrite merge_loop_named.
  - intros Hnone. unfold merge_cards, merge_loop.
    induction Hnone as [|c new_cards Hc _ IH]; [done|].
    simpl. by rewrite merge_step_nameless.
  - intros cards Hcards. split; [|by eapply extract_page_length].
    simpl. by rewrite Hcards.
Qed.

Lemma nameless_records_skipped_by_merge_only_witness :
  merge_cards [("Card A", stored_card_a)] [nameless_card] t1
    = Some (dict_values [("Card A", stored_card_a)]) ∧
  get_card_info id (Decoded page_with_bare_item) = [nameless_card] ∧
  length [nameless_card]
    = length (find_all "li" (Some "p-planSearchList_item") page_with_bare_item).
Proof.
  pose proof (nameless_records_skipped_by_merge_only id
                [("Card A", stored_card_a)] [nameless_card] t1
                page_with_bare_item) as (_ & Hmerge & Hextract).
  split.
  - apply Hmerge. repeat constructor.
  - apply Hextract. reflexivity.
Defined.

(** C3 as stated, for the extractor: no extracted record lacks a name. *)
Definition extracted_records_are_named : Prop :=
  ∀ (strip : string → string) (r : response) (c : card),
    c ∈ get_card_info strip r → is_Some (c !! "name").

(** C3 fails for the extractor: [cards.append(card)] is unconditional.  On
    [page_with_bare_item] the one item has no [div.card-spec-blk], and its
    record [{"features": []}] is returned all the same. *)
Lemma extractor_keeps_nameless_record :
  (∀ strip, get_card_info strip (Decoded page_with_bare_item) = [nameless_card]) ∧
  nameless_card !! "name" = None ∧
  ¬ extracted_records_are_named.
Proof.
  split; [reflexivity|]. split; [reflexivity|].
  intros H.
  destruct (H id (Decoded page_with_bare_item) nameless_card) as [v Hv].
  - apply list_elem_of_here.
  - discriminate Hv.
Qed.

(** ** C8 and C9: the scheduler *)

Section scheduler_facts.
Variable strip : string → string.
Variable session : nat → string → response.

Lemma process_page_group_app sent pages1 pages2 :
  process_page_group strip session sent (pages1 ++ pages2)
  = process_page_group strip session sent pages1
    ++ process_page_group strip session (sent + length pages1) pages2.
Proof.
  unfold process_page_group. rewrite imap_app, join_app. f_equal. f_equal.
  apply imap_ext. intros i page _. simpl. by rewrite Nat.add_assoc.
Qed.

Lemma process_page_group_one sent page :
  process_page_group strip session sent [page]
  = get_card_info strip (session sent (page_url page)).
Proof.
  unfold process_page_group. simpl.
  by rewrite Nat.add_0_r, app_nil_r.
Qed.

End scheduler_facts.


(** A network whose second request fails and whose other requests return
    [page_with_bare_item]. *)
Definition second_request_fails (i : nat) (url : string) : response :=
  if decide (i = 1%nat) then GetRaises else Decoded page_with_bare_item.

(** The fetch or the parse of the page raises: the request, the decoding
    or the fallback read raises, or the extraction raises on one of the
    list items of the page. *)
Definition page_raises (strip : string → string) (r : response) : Prop :=
  match r with
  | GetRaises | TextRaises | Undecodable None => True
  | Decoded soup | Undecodable (Some soup) =>
      ∃ item, item ∈ find_all "li" (Some "p-planSearchList_item") soup ∧
        extract_item strip item = None
  end.

Lemma extract_page_raises strip soup item :
  item ∈ find_all "li" (Some "p-planSearchList_item") soup →
  extract_item strip item = None → extract_page strip soup = None.
Proof.
  intros Hitem Hnone. unfold extract_page. apply eq_None_not_Some.
  intros Hall%mapM_is_Some_1.
  apply (proj1 (list.Forall_forall _ _) Hall) in Hitem.
  simpl in Hitem. rewrite Hnone in Hitem. by destruct Hitem.
Qed.

Lemma process_page_group_at strip session sent pages (i : nat) page :
  pages !! i = Some page →
  process_page_group strip session sent pages
  = process_page_group strip session sent (take i pages)
    ++ get_card_info strip (session (sent + i)%nat (page_url page))
    ++ process_page_group strip session (sent + S i) (drop (S i) pages).
Proof.
  intros Hi.
  rewrite <- (take_drop_middle pages i page Hi) at 1.
  assert (length (take i pages) = i) as Hlen.
  { apply length_take_le. apply lookup_lt_Some in Hi. lia. }
  rewrite process_page_group_app, Hlen.
  change (page :: drop (S i) pages) with ([page] ++ drop (S i) pages).
  rewrite process_page_group_app, process_page_group_one. simpl.
  by rewrite Nat.add_1_r, Nat.add_succ_r.
Qed.

(** C8.  A page whose fetch or parse raises yields the empty list, and the
    group still has the records of every other page: the result is the
    records of the pages before the failed one, page after page, followed
    by those of the pages after it; and whatever a sibling page's items
    yield stands in the result, after the records of the earlier pages and
    before those of the later ones. *)
Theorem failed_page_yields_empty_list (strip : string → string)
    (session : nat → string → response) (sent : nat) (pre : list Z) (page : Z)
    (post : list Z) :
  page_raises strip (session (sent + length pre)%nat (page_url page)) →
  get_card_info strip (session (sent + length pre)%nat (page_url page)) = [] ∧
  process_page_group strip session sent (pre ++ page :: post)
  = mjoin (imap (λ i p, get_card_info strip (session (sent + i)%nat (page_url p)))
             pre)
    ++ mjoin (imap (λ i p, get_card_info strip
                             (session (sent + length pre + 1 + i)%nat (page_url p)))
                post) ∧
  ∀ (i : nat) p soup cards,
    (pre ++ page :: post) !! i = Some p →
    session (sent + i)%nat (page_url p) = Decoded soup →
    extract_page strip soup = Some cards →
    process_page_group strip session sent (pre ++ page :: post)
    = process_page_group strip session sent (take i (pre ++ page :: post))
      ++ cards
      ++ process_page_group strip session (sent + S i)
           (drop (S i) (pre ++ page :: post)).
Proof.
  intros Hfail.
  assert (get_card_info strip (session (sent + length pre)%nat (page_url page))
          = []) as Hempty.
  { destruct (session (sent + length pre)%nat (page_url page))
      as [| |soup|[soup|]]; simpl in *; try done;
      destruct Hfail as (item & Hitem & Hnone);
      by rewrite (extract_page_raises _ _ _ Hitem Hnone). }
  split; [done|]. split.
  - rewrite process_page_group_app. f_equal.
    change (page :: post) with ([page] ++ post).
    by rewrite process_page_group_app, process_page_group_one, Hempty.
  - intros i p soup cards Hi Hsoup Hcards.
    rewrite (process_page_group_at _ _ _ _ _ _ Hi), Hsoup. simpl.
    by rewrite Hcards.
Qed.

Lemma failed_page_yields_empty_list_witness :
  get_card_info id (second_request_fails (0 + length [47])%nat (page_url 48)) = [] ∧
  process_page_group id second_request_fails 0 ([47] ++ 48 :: [49])
  = mjoin (imap (λ i p, get_card_info id
                          (second_request_fails (0 + i)%nat (page_url p))) [47])
    ++ mjoin (imap (λ i p, get_card_info id
                             (second_request_fails (0 + length [47] + 1 + i)%nat
                                (page_url p))) [49]) ∧
  ∀ (i : nat) p soup cards,
    ([47] ++ 48 :: [49]) !! i = Some p →
    second_request_fails (0 + i)%nat (page_url p) = Decoded soup →
    extract_page id soup = Some cards →
    process_page_group id second_request_fails 0 ([47] ++ 48 :: [49])
    = process_page_group id second_request_fails 0 (take i ([47] ++ 48 :: [49]))
      ++ cards
      ++ process_page_group id second_request_fails (0 + S i)
           (drop (S i) ([47] ++ 48 :: [49])).
Proof.
  apply (failed_page_yields_empty_list id second_request_fails 0 [47] 48 [49]).
  exact I.
Defined.

(** The group with one failed page still has the records of its siblings. *)
Example group_with_failed_page :
  process_page_group id second_request_fails 0 [47; 48; 49]
  = [nameless_card; nameless_card].
Proof. reflexivity. Qed.


(** ** C10: the fresh-store path *)



Lemma stamp_other now c k :
  k ≠ "created_at" → k ≠ "updated_at" → stamp now c !! k = c !! k.
Proof. intros H1 H2. unfold stamp. by rewrite !lookup_insert_ne. Qed.

(** A page with two list items that carry the same name:
    [<li class="p-planSearchList_item"><div class="card-spec-blk">
       <a class="p-planSearchList_name_link" href="/card/a/">Card A</a>
     </div></li>], twice. *)
Definition item_card_a : node :=
  Elem "li" ["p-planSearchList_item"] ∅
    [Elem "div" ["card-spec-blk"] ∅
       [Elem "a" ["p-planSearchList_name_link"] {["href" := "/card/a/"]}
          [Text "Card A"]]].

Definition page_with_twins : node :=
  Elem "[document]" [] ∅ [item_card_a; item_card_a].

(** What [item_card_a] yields. *)
Definition extracted_card_a : card :=
  <["features" := VList []]>
    (<["detail_url" := VStr "https://kakaku.com/card/a/"]>
       (<["name" := VStr "Card A"]> ∅)).



(** Without the directory of the output path the same run raises at
    [open(output_file, 'w')] and writes nothing. *)
Example fresh_run_without_directory :
  main id (λ _ _, Decoded page_with_twins) NoArgument (λ _, NoDirectory) t1
  = Crashed.
Proof. reflexivity. Qed.

(** The same page scraped into a store that already holds a record: the
    merge engine keeps one record for the shared name. *)
Example twins_merged_into_one :
  ∃ r, main id (λ _ _, Decoded page_with_twins) (PageArgument "47" (Some [47]))
         (λ _, JsonArray [stored_card_a]) t1
       = Written (pages_file "47") [r].
Proof. eexists. reflexivity. Qed.

(** ** C5: the timestamps of the persisted records *)



(** A record as the extractor builds it: no timestamp, and a name that is
    text when there is one. *)
Definition raw (c : card) : Prop :=
  c !! "created_at" = None ∧ c !! "updated_at" = None ∧ name_ok c = true.





Lemma foldM_invariant {A B : Type} (P : B → Prop) (f : B → A → option B)
    (l : list A) (acc acc' : B) :
  (∀ b a b', P b → f b a = Some b' → P b') →
  P acc → foldM f acc l = Some acc' → P acc'.
Proof.
  intros Hf. revert acc. induction l as [|x l IH]; intros acc Hacc; simpl.
  - by intros [= <-].
  - destruct (f acc x) as [b|] eqn:Hb; simpl; [|done]. eauto.
Qed.

Lemma raw_empty : raw ∅.
Proof. done. Qed.

Lemma raw_insert k v c :
  k ≠ "created_at" → k ≠ "updated_at" → k ≠ "name" →
  raw c → raw (<[k := v]> c).
Proof.
  intros H1 H2 H3 (Hc & Hu & Hn). unfold raw, name_ok in *.
  by rewrite !lookup_insert_ne.
Qed.

Lemma raw_insert_name s c : raw c → raw (<["name" := VStr s]> c).
Proof.
  intros (Hc & Hu & Hn). unfold raw, name_ok in *.
  by rewrite lookup_insert_eq, !lookup_insert_ne.
Qed.

Section extractor_facts.
Variable strip : string → string.

Lemma spec_step_raw c spec c' : raw c → spec_step strip c spec = Some c' → raw c'.
Proof.
  intros Hc. unfold spec_step.
  destruct (find "div" (Some "p-itemBox_data_spec_head") spec); simpl; [|done].
  repeat case_decide;
    destruct (find "div" (Some "p-itemBox_data_spec_detail") spec); simpl;
    try done; try (intros [= <-]; by apply raw_insert || done).
  destruct (foldM append_brand [] _); simpl; [|done].
  intros [= <-]. by apply raw_insert.
Qed.

Lemma extract_item_raw item c : extract_item strip item = Some c → raw c.
Proof.
  unfold extract_item.
  destruct (set_image_url item ∅) as [c1|] eqn:H1; simpl; [|done].
  assert (raw c1) as Hc1.
  { unfold set_image_url in H1.
    destruct (find "div" (Some "main-card") item) as [d|];
      [|injection H1 as <-; apply raw_empty].
    destruct (find "img" None d) as [img|];
      [|injection H1 as <-; apply raw_empty].
    destruct (attr img "src"); simpl in H1; [|done].
    injection H1 as <-. by apply raw_insert, raw_empty. }
  destruct (foldM (spec_step strip) c1 _) as [c2|] eqn:H2; simpl; [|done].
  assert (raw c2) as Hc2.
  { eapply (foldM_invariant raw); [|exact Hc1|exact H2].
    intros b a b' Hb. by apply spec_step_raw. }
  destruct (set_name strip item c2) as [c3|] eqn:H3; simpl; [|done].
  assert (raw c3) as Hc3.
  { unfold set_name in H3.
    destruct (find "div" (Some "card-spec-blk") item) as [d|];
      [|by injection H3 as <-].
    destruct (find "a" (Some "p-planSearchList_name_link") d) as [a|];
      [|by injection H3 as <-].
    destruct (attr a "href"); simpl in H3; [|done].
    injection H3 as <-. by apply raw_insert, raw_insert_name. }
  intros [= <-]. unfold set_features, set_text, set_rank.
  apply raw_insert; [done..|].
  repeat match goal with
         | |- raw (match ?x with _ => _ end) => destruct x
         | |- raw (<[_ := _]> _) => apply raw_insert; [done..|]
         end; done.
Qed.

Lemma get_card_info_raw r : Forall raw (get_card_info strip r).
Proof.
  assert (∀ soup, Forall raw (default [] (extract_page strip soup))) as Hpage.
  { intros soup. unfold extract_page.
    destruct (mapM _ _) as [cards|] eqn:Hcards; simpl; [|done].
    apply mapM_Some in Hcards. apply list.Forall_forall. intros c Hc.
    apply list_elem_of_lookup in Hc as [i Hi].
    destruct (Forall2_lookup_r _ _ _ _ _ Hcards Hi) as (item & _ & Hitem).
    by eapply extract_item_raw. }
  destruct r as [| |soup|[soup|]]; simpl; auto.
Qed.


End extractor_facts.






(** A page with one named item. *)
Definition page_with_card_a : node := Elem "[document]" [] ∅ [item_card_a].






(** ** C6 and C7: the download planner *)

Section downloader_facts.
Variable url_path : string → option string.

(** [filename not in existing], for a URL that urlparse accepts. *)
Definition is_new (existing : gset string) (url : string) : bool :=
  match get_filename_from_url url_path url with
  | Some filename => bool_decide (filename ∉ existing)
  | None => false
  end.

Lemma filter_step_loop existing urls acc :
  Forall (λ u, is_Some (url_path u)) urls →
  foldM (filter_step url_path existing) acc urls
  = Some (acc ++ filter (λ u, is_new existing u = true) urls).
Proof.
  intros Hurls. revert acc.
  induction Hurls as [|u urls [p Hp] _ IH]; intros acc; cbn [foldM].
  - by rewrite app_nil_r.
  - assert (filter_step url_path existing acc u
            = Some (if is_new existing u then acc ++ [u] else acc)) as ->.
    { unfold filter_step, is_new, get_filename_from_url. rewrite Hp. simpl.
      destruct (decide (basename p ∈ existing)).
      - by rewrite bool_decide_false by auto.
      - by rewrite bool_decide_true. }
    simpl. rewrite IH, filter_cons.
    destruct (is_new existing u).
    + rewrite decide_True by done. by rewrite <- (assoc_L (++)).
    + by rewrite decide_False.
Qed.

Lemma new_urls_spec existing urls :
  (∀ u, u ∈ urls → is_Some (url_path u)) →
  new_urls url_path existing urls
  = Some (filter (λ u, is_new existing u = true) (elements urls)).
Proof.
  intros Hurls. unfold new_urls. rewrite filter_step_loop; [done|].
  apply list.Forall_forall. intros u Hu. apply Hurls. by apply elem_of_elements.
Qed.

Lemma download_tasks_urls directory urls :
  Forall (λ u, is_Some (url_path u)) urls →
  ∃ tasks, download_tasks url_path directory urls = Some tasks ∧
    tasks.*1 = urls.
Proof.
  unfold download_tasks. induction 1 as [|u urls [p Hp] _ (tasks & IH & Hfst)].
  - by exists [].
  - exists ((u, directory +:+ "/" +:+ basename p) :: tasks).
    cbn [mapM]. rewrite IH. unfold get_filename_from_url. rewrite Hp.
    split; [done|]. by rewrite fmap_cons, Hfst.
Qed.

Lemma filter_is_new_parsed existing (urls : list string) :
  Forall (λ u, is_Some (url_path u))
    (filter (λ u, is_new existing u = true) urls).
Proof.
  apply list.Forall_forall. intros u [Hu _]%list_elem_of_filter.
  unfold is_new, get_filename_from_url in Hu.
  by destruct (url_path u).
Qed.

Lemma new_urls_covered existing urls :
  (∀ u, u ∈ urls →
     ∃ filename, get_filename_from_url url_path u = Some filename ∧
       filename ∈ existing) →
  new_urls url_path existing urls = Some [].
Proof.
  intros Hcov. rewrite new_urls_spec.
  - f_equal. apply elem_of_nil_inv. intros u [Hnew Hu]%list_elem_of_filter.
    apply elem_of_elements, Hcov in Hu as (f & Hf & Hin).
    unfold is_new in Hnew. rewrite Hf in Hnew.
    by rewrite bool_decide_false in Hnew by auto.
  - intros u (f & Hf & _)%Hcov. unfold get_filename_from_url in Hf.
    by destruct (url_path u).
Qed.

(** C7.  When the scan of each directory has the basename of every URL the
    store refers to in that category, no URL is new and the run creates no
    download task: no request is made. *)
Theorem covered_store_makes_no_request (brands cards_dir : list string)
    (cards : list card) (brand_urls card_urls : gset string) :
  collect_urls cards = Some (brand_urls, card_urls) →
  (∀ u, u ∈ brand_urls →
     ∃ filename, get_filename_from_url url_path u = Some filename ∧
       filename ∈ load_existing_images brands) →
  (∀ u, u ∈ card_urls →
     ∃ filename, get_filename_from_url url_path u = Some filename ∧
       filename ∈ load_existing_images cards_dir) →
  process_cards url_path brands cards_dir (Some cards) = Downloaded [] [] ∧
  requests (process_cards url_path brands cards_dir (Some cards)) = ([], []).
Proof.
  intros Hurls Hb Hc.
  assert (process_cards url_path brands cards_dir (Some cards)
          = Downloaded [] []) as Hrun.
  { unfold process_cards. rewrite Hurls. simpl.
    by rewrite (new_urls_covered _ _ Hb), (new_urls_covered _ _ Hc). }
  by rewrite Hrun.
Qed.

(** C6, as amended.  The batch is deduplicated by URL, and filtered by file
    name against the scan of the directory only: in each category the
    requested URLs are, each exactly once, the URLs of the store whose
    basename is not among the scanned names. *)
Theorem requests_are_the_new_urls (brands cards_dir : list string)
    (cards : list card) (brand_urls card_urls : gset string) :
  collect_urls cards = Some (brand_urls, card_urls) →
  (∀ u, u ∈ brand_urls ∪ card_urls → is_Some (url_path u)) →
  ∃ brand_tasks card_tasks,
    process_cards url_path brands cards_dir (Some cards)
    = Downloaded brand_tasks card_tasks ∧
    NoDup brand_tasks.*1 ∧ NoDup card_tasks.*1 ∧
    (∀ u, u ∈ brand_tasks.*1 ↔
       u ∈ brand_urls ∧ is_new (load_existing_images brands) u = true) ∧
    (∀ u, u ∈ card_tasks.*1 ↔
       u ∈ card_urls ∧ is_new (load_existing_images cards_dir) u = true).
Proof.
  intros Hurls Hparsed.
  destruct (download_tasks_urls "images/brands" _
              (filter_is_new_parsed (load_existing_images brands)
                 (elements brand_urls))) as (bt & Hbt & Hbfst).
  destruct (download_tasks_urls "images/cards" _
              (filter_is_new_parsed (load_existing_images cards_dir)
                 (elements card_urls))) as (ct & Hct & Hcfst).
  exists bt, ct. split; [|split; [|split; [|split]]].
  - unfold process_cards. rewrite Hurls. simpl.
    rewrite !new_urls_spec by (intros u Hu; apply Hparsed; set_solver).
    simpl. by rewrite Hbt, Hct.
  - rewrite Hbfst. apply NoDup_filter, NoDup_elements.
  - rewrite Hcfst. apply NoDup_filter, NoDup_elements.
  - intros u. rewrite Hbfst, list_elem_of_filter, elem_of_elements. tauto.
  - intros u. rewrite Hcfst, list_elem_of_filter, elem_of_elements. tauto.
Qed.
End downloader_facts.

(** The text from the first slash on. *)
Fixpoint from_slash (s : string) : string :=
  match s with
  | EmptyString => EmptyString
  | String c rest => if decide (c = "/"%char) then s else from_slash rest
  end.

(** [urlparse(url).path] on the URLs used below, which have the form
    [scheme://host/path] with no parameters, query or fragment: the path is
    what follows the host. *)
Definition sample_url_path (url : string) : option string :=
  match String.index 0 "://" url with
  | Some i => Some (from_slash (String.substring (i + 3) (String.length url) url))
  | None => Some url
  end.

Definition url_a : string := "https://a.example/img/x.png".
Definition url_b : string := "https://b.example/img/x.png".

(** [[{"image_url": url_a}, {"image_url": url_b}]] *)
Definition store_with_twin_images : list card :=
  [{["image_url" := VStr url_a]}; {["image_url" := VStr url_b]}].

Lemma covered_store_makes_no_request_witness :
  process_cards sample_url_path [] ["x.png"] (Some store_with_twin_images)
  = Downloaded [] [] ∧
  requests (process_cards sample_url_path [] ["x.png"]
              (Some store_with_twin_images)) = ([], []).
Proof.
  apply (covered_store_makes_no_request sample_url_path [] ["x.png"]
           store_with_twin_images ∅ {[url_b; url_a]}).
  - reflexivity.
  - intros u Hu. by apply not_elem_of_empty in Hu.
  - intros u Hu. exists "x.png".
    apply elem_of_union in Hu as [->%elem_of_singleton| ->%elem_of_singleton];
      (split; [reflexivity | by vm_compute]).
Defined.

Lemma requests_are_the_new_urls_witness :
  ∃ brand_tasks card_tasks,
    process_cards sample_url_path [] [] (Some store_with_twin_images)
    = Downloaded brand_tasks card_tasks ∧
    NoDup brand_tasks.*1 ∧ NoDup card_tasks.*1 ∧
    (∀ u, u ∈ brand_tasks.*1 ↔
       u ∈ (∅ : gset string) ∧
       is_new sample_url_path (load_existing_images []) u = true) ∧
    (∀ u, u ∈ card_tasks.*1 ↔
       u ∈ ({[url_b; url_a]} : gset string) ∧
       is_new sample_url_path (load_existing_images []) u = true).
Proof.
  apply (requests_are_the_new_urls sample_url_path [] []
           store_with_twin_images ∅ {[url_b; url_a]}).
  - reflexivity.
  - intros u Hu. rewrite (left_id_L ∅ (∪)) in Hu.
    apply elem_of_union in Hu as [->%elem_of_singleton| ->%elem_of_singleton];
      by eexists.
Defined.

(** C6 as stated, for the card category: of two distinct URLs with the same
    basename, at most one is requested. *)
Definition same_basename_fetched_once : Prop :=
  ∀ (url_path : string → option string) (brands cards_dir : list string)
    (cards : list card) (u1 u2 filename : string),
    u1 ≠ u2 →
    get_filename_from_url url_path u1 = Some filename →
    get_filename_from_url url_path u2 = Some filename →
    ¬ (u1 ∈ (requests (process_cards url_path brands cards_dir (Some cards))).2 ∧
       u2 ∈ (requests (process_cards url_path brands cards_dir (Some cards))).2).

(** C6 fails when neither file is in the directory yet: [card_urls] is a set
    of URLs, so [url_a] and [url_b] are both in it, both pass
    [filename not in existing_card_images], and both are requested, for the
    one target [images/cards/x.png]. *)
Lemma same_basename_fetched_twice :
  get_filename_from_url sample_url_path url_a = Some "x.png" ∧
  get_filename_from_url sample_url_path url_b = Some "x.png" ∧
  (∃ card_tasks,
     process_cards sample_url_path [] [] (Some store_with_twin_images)
     = Downloaded [] card_tasks ∧
     length card_tasks = 2%nat ∧
     (url_a, "images/cards/x.png") ∈ card_tasks ∧
     (url_b, "images/cards/x.png") ∈ card_tasks) ∧
  ¬ same_basename_fetched_once.
Proof.
  split; [reflexivity|]. split; [reflexivity|].
  assert (process_cards sample_url_path [] [] (Some store_with_twin_images)
          = Downloaded [] [(url_a, "images/cards/x.png");
                           (url_b, "images/cards/x.png")]
          ∨ process_cards sample_url_path [] [] (Some store_with_twin_images)
          = Downloaded [] [(url_b, "images/cards/x.png");
                           (url_a, "images/cards/x.png")]) as Hrun.
  { vm_compute. auto. }
  split.
  - destruct Hrun as [-> | ->]; eexists; (split; [done|]); (split; [done|]);
      split; set_solver.
  - intros H.
    apply (H sample_url_path [] [] store_with_twin_images url_a url_b "x.png");
      [done | reflexivity | reflexivity |].
    destruct Hrun as [-> | ->]; simpl; split; set_solver.
Qed.

(** * Further properties of the merge engine and the loader *)

Lemma merge_step_keyed T merged c merged' :
  Forall (λ e : string * card, e.2 !! "name" = Some (VStr e.1)) merged →
  merge_step T merged c = Some merged' →
  Forall (λ e : string * card, e.2 !! "name" = Some (VStr e.1)) merged'.
Proof.
  intros Hkeyed. unfold merge_step.
  destruct (c !! "name") as [[n| |]|] eqn:Hn; try done; [|by intros [= <-]].
  destruct (dict_get n merged) as [old|]; intros [= <-];
    apply dict_set_entries; try done; simpl.
  - rewrite lookup_insert_ne by done. by apply lookup_union_Some_l.
  - by rewrite stamp_other.
Qed.

Lemma merge_loop_well_keyed T new_cards merged merged' :
  well_keyed merged → merge_loop T merged new_cards = Some merged' →
  well_keyed merged'.
Proof.
  intros [Hnodup Hkeyed] Hloop. split.
  - rewrite (merge_loop_keys _ _ _ _ Hloop). by apply first_names_NoDup.
  - revert Hloop. unfold merge_loop.
    apply (foldM_invariant
             (Forall (λ e : string * card, e.2 !! "name" = Some (VStr e.1))));
      [|done].
    intros b a b'. apply merge_step_keyed.
Qed.

(** X1.  The merge returns one record for each name: first the stored
    names, in their stored order, then the names the batch brings, in the
    order of their first appearance; each record carries the name it is
    listed under.  (The batch has text names, so the merge does not raise;
    the store is keyed as the loader keys it.) *)
Theorem merge_output_order (existing : dict card) (new_cards : list card)
    (current_time : string) :
  well_keyed existing →
  Forall (λ c, name_ok c = true) new_cards →
  ∃ merged,
    merge_cards existing new_cards current_time = Some (dict_values merged) ∧
    merged.*1 = existing.*1 ++ first_names existing.*1 new_cards ∧
    well_keyed merged ∧
    length (dict_values merged)
    = (length existing + length (first_names existing.*1 new_cards))%nat.
Proof.
  intros Hkeyed Hok.
  destruct (merge_loop_returns current_time new_cards existing Hok)
    as [merged Hloop].
  exists merged. split; [by apply merge_cards_loop|].
  pose proof (merge_loop_keys _ _ _ _ Hloop) as Hkeys.
  split; [done|]. split; [by eapply merge_loop_well_keyed|].
  unfold dict_values. rewrite length_fmap.
  rewrite <- (length_fmap fst merged), Hkeys, length_app. by rewrite length_fmap.
Qed.

Lemma merge_output_order_witness :
  ∃ merged,
    merge_cards [("Card A", stored_card_a)]
      [scraped_card_b; scraped_card_a; scraped_card_b] t1
    = Some (dict_values merged) ∧
    merged.*1 = [("Card A", stored_card_a)].*1
                ++ first_names [("Card A", stored_card_a)].*1
                     [scraped_card_b; scraped_card_a; scraped_card_b] ∧
    well_keyed merged ∧
    length (dict_values merged)
    = (length [("Card A", stored_card_a)]
       + length (first_names [("Card A", stored_card_a)].*1
                   [scraped_card_b; scraped_card_a; scraped_card_b]))%nat.
Proof.
  apply (merge_output_order [("Card A", stored_card_a)]
           [scraped_card_b; scraped_card_a; scraped_card_b] t1).
  - split; [apply NoDup_singleton | by repeat constructor].
  - repeat constructor.
Defined.

(** X2.  A stored record whose name no record of the batch carries comes
    out of the merge unchanged and at the position it had. *)
Theorem merge_leaves_other_records (existing : dict card)
    (new_cards : list card) (current_time n : string) (old : card) (i : nat) :
  existing !! i = Some (n, old) →
  Forall (λ c, has_name n c = false) new_cards →
  Forall (λ c, name_ok c = true) new_cards →
  ∃ cards, merge_cards existing new_cards current_time = Some cards ∧
    cards !! i = Some old.
Proof.
  intros Hi Hother Hok.
  destruct (merge_loop_returns current_time new_cards existing Hok)
    as [merged Hloop].
  exists (dict_values merged). split; [by apply merge_cards_loop|].
  assert (merged !! i = Some (n, old)) as Hm.
  { revert Hloop Hi. unfold merge_loop. clear Hok. revert existing.
    induction Hother as [|c rest Hc _ IH]; intros existing; cbn [foldM].
    - by intros [= <-].
    - destruct (merge_step current_time existing c) as [m1|] eqn:Hstep;
        [|done].
      intros Hrest Hi. apply (IH m1 Hrest).
      by eapply merge_step_lookup_ne. }
  unfold dict_values. by rewrite list_lookup_fmap, Hm.
Qed.

Lemma merge_leaves_other_records_witness :
  ∃ cards,
    merge_cards [("Card A", stored_card_a)] [scraped_card_b; nameless_card] t1
    = Some cards ∧
    cards !! 0%nat = Some stored_card_a.
Proof.
  apply (merge_leaves_other_records [("Card A", stored_card_a)]
           [scraped_card_b; nameless_card] t1 "Card A" stored_card_a 0).
  - reflexivity.
  - repeat constructor.
  - repeat constructor.
Defined.

(** ** The loader *)

Lemma name_index_reload acc d :
  well_keyed (acc ++ d) →
  foldM name_index_step acc (dict_values d) = Some (acc ++ d).
Proof.
  unfold dict_values. revert acc.
  induction d as [|[n c] d IH]; intros acc Hkeyed.
  - simpl. by rewrite app_nil_r.
  - rewrite fmap_cons. cbn [foldM snd].
    destruct Hkeyed as [Hnodup Hnames].
    assert (c !! "name" = Some (VStr n)) as Hn.
    { apply Forall_app in Hnames as [_ Hd]. by apply Forall_cons in Hd as [? _]. }
    assert (n ∉ acc.*1) as Hfresh.
    { rewrite fmap_app in Hnodup. apply NoDup_app in Hnodup as (_ & Hdisj & _).
      intros Hin. apply (Hdisj n Hin). rewrite fmap_cons. apply list_elem_of_here. }
    assert (name_index_step acc c = Some (acc ++ [(n, c)])) as ->.
    { unfold name_index_step. by rewrite Hn, dict_set_fresh. }
    simpl. rewrite IH; rewrite <- (assoc_L (++)); done.
Qed.

Lemma name_index_well_keyed cards acc d :
  well_keyed acc → foldM name_index_step acc cards = Some d → well_keyed d.
Proof.
  apply (foldM_invariant well_keyed). clear.
  intros b c b' [Hnodup Hnames]. unfold name_index_step.
  destruct (c !! "name") as [[n| |]|] eqn:Hn; try done; [|by intros [= <-]].
  intros [= <-]. split; [|by apply dict_set_entries].
  destruct (decide (n ∈ b.*1)) as [Hin|Hin].
  - by rewrite dict_set_present.
  - rewrite dict_set_fresh, fmap_app by done.
    apply NoDup_app. split; [done|]. split; [|apply NoDup_singleton].
    by intros x Hx ->%list_elem_of_singleton.
Qed.

Lemma load_existing_cards_well_keyed f : well_keyed (load_existing_cards f).
Proof.
  assert (well_keyed []) as Hnil by (split; constructor).
  destruct f as [| | |cards]; simpl; try done.
  destruct (foldM name_index_step [] cards) as [d|] eqn:Hd; [|done].
  by eapply name_index_well_keyed.
Qed.

(** X3.  What a merge returns reloads as the mapping the merge built: the
    loader applied to the written array gives back every record, in the
    same order, so the next run starts from exactly what this run saved. *)
Theorem merged_store_reloads (f : store_file) (new_cards : list card)
    (current_time : string) (cards : list card) :
  merge_cards (load_existing_cards f) new_cards current_time = Some cards →
  dict_values (load_existing_cards (JsonArray cards)) = cards ∧
  length (load_existing_cards (JsonArray cards)) = length cards.
Proof.
  unfold merge_cards.
  destruct (merge_loop current_time (load_existing_cards f) new_cards)
    as [merged|] eqn:Hloop; [|done].
  intros [= <-].
  assert (well_keyed merged) as Hkeyed.
  { eapply merge_loop_well_keyed; [|exact Hloop].
    apply load_existing_cards_well_keyed. }
  assert (load_existing_cards (JsonArray (dict_values merged)) = merged) as ->.
  { simpl. by rewrite (name_index_reload [] merged). }
  split; [done|]. unfold dict_values. by rewrite length_fmap.
Qed.

Lemma merged_store_reloads_witness :
  dict_values (load_existing_cards (JsonArray
    [<["updated_at" := VStr t1]> (scraped_card_a ∪ stored_card_a);
     stamp t1 scraped_card_b]))
  = [<["updated_at" := VStr t1]> (scraped_card_a ∪ stored_card_a);
     stamp t1 scraped_card_b] ∧
  length (load_existing_cards (JsonArray
    [<["updated_at" := VStr t1]> (scraped_card_a ∪ stored_card_a);
     stamp t1 scraped_card_b]))
  = length [<["updated_at" := VStr t1]> (scraped_card_a ∪ stored_card_a);
            stamp t1 scraped_card_b].
Proof.
  apply (merged_store_reloads (JsonArray [stored_card_a])
           [scraped_card_a; scraped_card_b] t1).
  reflexivity.
Defined.

Lemma name_index_lookup n cards acc :
  Forall (λ c, name_ok c = true) cards →
  ∃ d, foldM name_index_step acc cards = Some d ∧
    dict_get n d = match last (filter (λ c, has_name n c = true) cards) with
                   | Some c => Some c
                   | None => dict_get n acc
                   end.
Proof.
  intros Hok. revert acc.
  induction Hok as [|c cards Hc _ IH]; intros acc; cbn [foldM].
  - by eexists.
  - rewrite filter_cons.
    assert (∃ acc1, name_index_step acc c = Some acc1 ∧
              dict_get n acc1 = if has_name n c then Some c else dict_get n acc)
      as (acc1 & -> & Hacc1).
    { unfold name_index_step, has_name. unfold name_ok in Hc.
      destruct (c !! "name") as [[m| |]|]; try done; [|by eexists].
      eexists. split; [done|].
      case_bool_decide as Hmn; [subst; apply dict_get_set_eq|].
      by apply dict_get_set_ne. }
    destruct (IH acc1) as (d & Hd & Hget). exists d. split; [exact Hd|].
    rewrite Hget, Hacc1. destruct (has_name n c).
    + rewrite decide_True by done. rewrite last_cons. by destruct (last _).
    + by rewrite decide_False.
Qed.

(** X4.  The loader indexes the stored array by name: records without a
    name are left out, and of several records with one name the last one is
    kept.  (All names in the array are text.) *)
Theorem load_existing_cards_last_wins (cards : list card) (n : string) :
  Forall (λ c, name_ok c = true) cards →
  dict_get n (load_existing_cards (JsonArray cards))
  = last (filter (λ c, has_name n c = true) cards) ∧
  well_keyed (load_existing_cards (JsonArray cards)).
Proof.
  intros Hok. split; [|apply load_existing_cards_well_keyed].
  destruct (name_index_lookup n cards [] Hok) as (d & Hd & Hget).
  simpl. rewrite Hd, Hget. by destruct (last _).
Qed.

Lemma load_existing_cards_last_wins_witness :
  dict_get "Card A"
    (load_existing_cards (JsonArray [stored_card_a; nameless_card; scraped_card_a]))
  = last (filter (λ c, has_name "Card A" c = true)
            [stored_card_a; nameless_card; scraped_card_a]) ∧
  well_keyed
    (load_existing_cards (JsonArray [stored_card_a; nameless_card; scraped_card_a])).
Proof.
  apply (load_existing_cards_last_wins
           [stored_card_a; nameless_card; scraped_card_a] "Card A").
  repeat constructor.
Defined.

Lemma foldM_raises {A B : Type} (f : B → A → option B) (l : list A) (x : A)
    (acc : B) :
  x ∈ l → (∀ b, f b x = None) → foldM f acc l = None.
Proof.
  intros Hx Hf. revert acc.
  induction l as [|y l IH]; intros acc; [by apply elem_of_nil in Hx|].
  cbn [foldM]. apply elem_of_cons in Hx as [<-|Hx].
  - by rewrite Hf.
  - destruct (f acc y); simpl; [by apply IH | done].
Qed.

(** A record whose name is a list. *)
Definition card_with_list_name : card := <["name" := VList []]> ∅.

(** X5.  One stored record whose name is a list or an object makes the
    loader give up on the whole file: it returns the empty mapping, and main
    then takes the fresh-store path and writes the scraped records only, so
    every stored record is dropped from the file. *)
Theorem unhashable_name_discards_store (strip : string → string)
    (session : nat → string → response) (argv : cli)
    (disk : string → store_file) (now file : string) (all_cards : list card)
    (stored : list card) (c : card) :
  scrape strip session argv = Some (file, all_cards) →
  disk file = JsonArray stored →
  c ∈ stored → name_ok c = false →
  load_existing_cards (disk file) = [] ∧
  main strip session argv disk now = Written file (stamp now <$> all_cards).
Proof.
  intros Hscrape Hdisk Hc Hbad.
  assert (load_existing_cards (disk file) = []) as Hload.
  { rewrite Hdisk. simpl. rewrite (foldM_raises _ _ c); [done|done|].
    intros b. unfold name_index_step. unfold name_ok in Hbad.
    by destruct (c !! "name") as [[]|]. }
  split; [done|]. unfold main, save. by rewrite Hscrape, Hload, Hdisk.
Qed.

Lemma unhashable_name_discards_store_witness :
  load_existing_cards (JsonArray [stored_card_a; card_with_list_name]) = [] ∧
  main id (λ _ _, Decoded page_with_card_a) (PageArgument "47" (Some [47]))
    (λ _, JsonArray [stored_card_a; card_with_list_name]) t1
  = Written (pages_file "47") (stamp t1 <$> [extracted_card_a]).
Proof.
  apply (unhashable_name_discards_store id (λ _ _, Decoded page_with_card_a)
           (PageArgument "47" (Some [47]))
           (λ _, JsonArray [stored_card_a; card_with_list_name]) t1
           (pages_file "47") [extracted_card_a]
           [stored_card_a; card_with_list_name] card_with_list_name).
  - reflexivity.
  - reflexivity.
  - set_solver.
  - reflexivity.
Defined.

(** ** main and the extractor *)


(** The fields the extractor may set. *)
Definition extractor_fields : list string :=
  ["image_url"; "brands"; "annual_fee"; "point_rate"; "name"; "detail_url";
   "rank"; "introduction_title"; "introduction_text"; "features"].

(** The shape of an extracted record: only known fields, and a name exactly
    when there is a detail URL. *)
Definition shaped (c : card) : Prop :=
  (∀ k, is_Some (c !! k) → k ∈ extractor_fields) ∧
  (is_Some (c !! "name") ↔ is_Some (c !! "detail_url")).

Lemma shaped_empty : shaped ∅.
Proof.
  split; [intros k; rewrite lookup_empty; by intros [? ?]|].
  rewrite !lookup_empty. split; by intros [? ?].
Qed.

Lemma shaped_insert k v c :
  k ∈ extractor_fields → k ≠ "name" → k ≠ "detail_url" →
  shaped c → shaped (<[k := v]> c).
Proof.
  intros Hk H1 H2 [Hkeys Hname]. split.
  - intros k'. destruct (decide (k = k')) as [<-|Hne]; [done|].
    rewrite lookup_insert_ne by done. apply Hkeys.
  - by rewrite !lookup_insert_ne.
Qed.

Lemma shaped_insert_name n u c :
  shaped c → shaped (<["detail_url" := u]> (<["name" := n]> c)).
Proof.
  intros [Hkeys _]. split.
  - intros k. destruct (decide (k = "detail_url")) as [->|H1].
    { intros _. by apply (bool_decide_unpack _). }
    rewrite lookup_insert_ne by done.
    destruct (decide (k = "name")) as [->|H2].
    { intros _. by apply (bool_decide_unpack _). }
    rewrite lookup_insert_ne by done. apply Hkeys.
  - rewrite lookup_insert_eq, lookup_insert_ne, lookup_insert_eq by done.
    split; by eexists.
Qed.

Ltac shaped_step :=
  match goal with
  | |- shaped (<["detail_url" := _]> (<["name" := _]> _)) =>
      apply shaped_insert_name
  | |- shaped (<[_ := _]> _) =>
      apply shaped_insert; [by apply (bool_decide_unpack _) | done | done |]
  | |- shaped ∅ => apply shaped_empty
  | |- shaped (match ?x with _ => _ end) => destruct x
  end.

Section extractor_shape.
Variable strip : string → string.

Lemma spec_step_shaped c spec c' :
  shaped c → spec_step strip c spec = Some c' → shaped c'.
Proof.
  intros Hc. unfold spec_step.
  destruct (find "div" (Some "p-itemBox_data_spec_head") spec); simpl; [|done].
  repeat case_decide;
    destruct (find "div" (Some "p-itemBox_data_spec_detail") spec); simpl;
    try done; try (intros [= <-]; by repeat shaped_step).
  destruct (foldM append_brand [] _); simpl; [|done].
  intros [= <-]. by repeat shaped_step.
Qed.

Lemma extract_item_shaped item c :
  extract_item strip item = Some c →
  shaped c ∧ ∃ features, c !! "features" = Some (VList features).
Proof.
  unfold extract_item.
  destruct (set_image_url item ∅) as [c1|] eqn:H1; simpl; [|done].
  assert (shaped c1) as Hc1.
  { unfold set_image_url in H1.
    destruct (find "div" (Some "main-card") item) as [d|];
      [|injection H1 as <-; apply shaped_empty].
    destruct (find "img" None d) as [img|];
      [|injection H1 as <-; apply shaped_empty].
    destruct (attr img "src"); simpl in H1; [|done].
    injection H1 as <-. by repeat shaped_step. }
  destruct (foldM (spec_step strip) c1 _) as [c2|] eqn:H2; simpl; [|done].
  assert (shaped c2) as Hc2.
  { eapply (foldM_invariant shaped); [|exact Hc1|exact H2].
    intros b a b' Hb. by apply spec_step_shaped. }
  destruct (set_name strip item c2) as [c3|] eqn:H3; simpl; [|done].
  assert (shaped c3) as Hc3.
  { unfold set_name in H3.
    destruct (find "div" (Some "card-spec-blk") item) as [d|];
      [|by injection H3 as <-].
    destruct (find "a" (Some "p-planSearchList_name_link") d) as [a|];
      [|by injection H3 as <-].
    destruct (attr a "href"); simpl in H3; [|done].
    injection H3 as <-. by repeat shaped_step. }
  intros [= <-]. split.
  - unfold set_features, set_text, set_rank. by repeat shaped_step.
  - unfold set_features. rewrite lookup_insert_eq. by eexists.
Qed.

Lemma extract_page_Forall (P : card → Prop) soup cards :
  (∀ item c, extract_item strip item = Some c → P c) →
  extract_page strip soup = Some cards → Forall P cards.
Proof.
  intros HP Hcards. unfold extract_page in Hcards.
  apply mapM_Some in Hcards. apply list.Forall_forall. intros c Hc.
  apply list_elem_of_lookup in Hc as [i Hi].
  destruct (Forall2_lookup_r _ _ _ _ _ Hcards Hi) as (item & _ & Hitem).
  by eapply HP.
Qed.
End extractor_shape.

(** X7.  Every record the extractor returns has only the ten fields the
    extractor knows, always has a [features] list, never has a timestamp,
    and has a [name] exactly when it has a [detail_url]. *)
Theorem extracted_records_are_shaped (strip : string → string) (r : response)
    (c : card) :
  c ∈ get_card_info strip r →
  (∀ k, is_Some (c !! k) → k ∈ extractor_fields) ∧
  (∃ features, c !! "features" = Some (VList features)) ∧
  (is_Some (c !! "name") ↔ is_Some (c !! "detail_url")) ∧
  c !! "created_at" = None ∧ c !! "updated_at" = None.
Proof.
  intros Hc.
  assert (∀ soup, c ∈ default [] (extract_page strip soup) →
    shaped c ∧ ∃ features, c !! "features" = Some (VList features)) as Hpage.
  { intros soup. destruct (extract_page strip soup) as [cards|] eqn:Hcards;
      simpl; [|by intros ?%elem_of_nil].
    intros Hin. clear Hc. revert c Hin. apply list.Forall_forall.
    eapply extract_page_Forall; [|exact Hcards].
    intros item c. apply extract_item_shaped. }
  pose proof (get_card_info_raw strip r) as Hraw.
  apply (proj1 (list.Forall_forall _ _) Hraw) in Hc as Hrawc.
  destruct Hrawc as (Hcre & Hupd & _).
  assert (shaped c ∧ ∃ features, c !! "features" = Some (VList features))
    as [[Hkeys Hname] Hfeat].
  { destruct r as [| |soup|[soup|]]; simpl in Hc;
      try (by apply elem_of_nil in Hc); by eapply Hpage. }
  done.
Qed.

Lemma extracted_records_are_shaped_witness :
  (∀ k, is_Some (extracted_card_a !! k) → k ∈ extractor_fields) ∧
  (∃ features, extracted_card_a !! "features" = Some (VList features)) ∧
  (is_Some (extracted_card_a !! "name")
   ↔ is_Some (extracted_card_a !! "detail_url")) ∧
  extracted_card_a !! "created_at" = None ∧
  extracted_card_a !! "updated_at" = None.
Proof.
  apply (extracted_records_are_shaped id (Decoded page_with_card_a)
           extracted_card_a).
  apply list_elem_of_here.
Defined.

(** An item whose card image has no [src]:
    [<li class="p-planSearchList_item"><div class="main-card"><img></div></li>]. *)
Definition item_without_src : node :=
  Elem "li" ["p-planSearchList_item"] ∅
    [Elem "div" ["main-card"] ∅ [Elem "img" [] ∅ []]].

(** X8.  One list item on which the extraction raises costs the whole
    page: the records of the other items of that page are not returned
    either. *)
Theorem failing_item_discards_page (strip : string → string) (soup : node)
    (item : node) :
  item ∈ find_all "li" (Some "p-planSearchList_item") soup →
  extract_item strip item = None →
  get_card_info strip (Decoded soup) = [] ∧
  get_card_info strip (Undecodable (Some soup)) = [].
Proof.
  intros Hitem Hnone.
  assert (extract_page strip soup = None) as Hpage.
  { unfold extract_page. apply eq_None_not_Some.
    intros Hall%mapM_is_Some_1.
    apply (proj1 (list.Forall_forall _ _) Hall) in Hitem.
    simpl in Hitem. rewrite Hnone in Hitem. by destruct Hitem. }
  simpl. by rewrite Hpage.
Qed.

Lemma failing_item_discards_page_witness :
  get_card_info id
    (Decoded (Elem "[document]" [] ∅ [item_card_a; item_without_src])) = [] ∧
  get_card_info id
    (Undecodable (Some (Elem "[document]" [] ∅ [item_card_a; item_without_src])))
  = [].
Proof.
  apply (failing_item_discards_page id
           (Elem "[document]" [] ∅ [item_card_a; item_without_src])
           item_without_src).
  - apply list_elem_of_further, list_elem_of_here.
  - reflexivity.
Defined.






(** ** The downloader *)

Lemma add_brand_urls brand_urls brand brand_urls' u :
  add_brand brand_urls brand = Some brand_urls' →
  u ∈ brand_urls' ↔
    u ∈ brand_urls ∨
    ∃ d, brand = VDict d ∧ d !! "image_url" = Some (VStr u).
Proof.
  unfold add_brand. destruct brand as [s|l|d].
  - destruct (contains "image_url" s); [done|]. intros [= <-].
    split; [by left | by intros [?|(? & ? & _)]].
  - destruct (existsb _ l); [done|]. intros [= <-].
    split; [by left | by intros [?|(? & ? & _)]].
  - destruct (d !! "image_url") as [[url| |]|] eqn:Hd; simpl; try done;
      intros [= <-].
    + rewrite elem_of_union, elem_of_singleton. split.
      * intros [->|?]; [right; by exists d | by left].
      * intros [?|(d' & [= <-] & Hu)]; [by right|].
        rewrite Hd in Hu. injection Hu as ->. by left.
    + split; [by left|]. intros [?|(d' & [= <-] & Hu)]; [done|].
      by rewrite Hd in Hu.
Qed.

Lemma add_brand_loop_urls brands brand_urls brand_urls' u :
  foldM add_brand brand_urls brands = Some brand_urls' →
  u ∈ brand_urls' ↔
    u ∈ brand_urls ∨
    ∃ d, VDict d ∈ brands ∧ d !! "image_url" = Some (VStr u).
Proof.
  revert brand_urls. induction brands as [|b brands IH]; intros B0; cbn [foldM].
  - intros [= <-]. split; [by left|].
    by intros [?|(d & ?%elem_of_nil & _)].
  - destruct (add_brand B0 b) as [B1|] eqn:Hb; [|done]. simpl.
    intros Hrest. rewrite (IH _ Hrest), (add_brand_urls _ _ _ u Hb).
    split.
    + intros [[?|(d & -> & Hd)]|(d & Hin & Hd)]; [by left| |];
        right; exists d; split; try done;
        [apply list_elem_of_here | by apply list_elem_of_further].
    + intros [?|(d & Hin & Hd)]; [by left; left|].
      apply elem_of_cons in Hin as [<-|Hin];
        [left; right; by exists d | right; by exists d].
Qed.

(** The brand dicts of a card: the objects in its [brands] array. *)
Definition brand_dicts (c : card) : list (gmap string value) :=
  match c !! "brands" with
  | Some (VList l) =>
      omap (λ v, match v with VDict d => Some d | _ => None end) l
  | _ => []
  end.

Lemma dict_in_iterate c v d :
  c !! "brands" = Some v → VDict d ∈ iterate v ↔ d ∈ brand_dicts c.
Proof.
  intros Hv. unfold brand_dicts. rewrite Hv. destruct v as [s|l|m]; simpl.
  - split; [|by intros ?%elem_of_nil].
    intros (x & [=] & _)%list_elem_of_fmap.
  - rewrite list_elem_of_omap. split.
    + intros Hin. by exists (VDict d).
    + intros ([s|l'|d'] & Hin & [= <-]). done.
  - split; [|by intros ?%elem_of_nil].
    intros (x & [=] & _)%list_elem_of_fmap.
Qed.

Lemma card_step_urls st c st' :
  card_step st c = Some st' →
  (∀ u, u ∈ st'.2 ↔ u ∈ st.2 ∨ c !! "image_url" = Some (VStr u)) ∧
  (∀ u, u ∈ st'.1 ↔
     u ∈ st.1 ∨ ∃ d, d ∈ brand_dicts c ∧ d !! "image_url" = Some (VStr u)).
Proof.
  unfold card_step. destruct st as [B0 C0]. simpl.
  destruct (match c !! "image_url" with
            | Some v => add_url C0 v
            | None => Some C0
            end) as [C1|] eqn:HC; simpl; [|done].
  destruct (match c !! "brands" with
            | Some v => foldM add_brand B0 (iterate v)
            | None => Some B0
            end) as [B1|] eqn:HB; simpl; [|done].
  intros [= <-]. simpl. split; intros u.
  - destruct (c !! "image_url") as [[url| |]|]; simpl in HC; try done;
      injection HC as <-.
    + rewrite elem_of_union, elem_of_singleton. split.
      * intros [->|?]; [by right | by left].
      * intros [?|[= ->]]; [by right | by left].
    + split; [by left | by intros [?|?]].
  - destruct (c !! "brands") as [v|] eqn:Hv.
    + rewrite (add_brand_loop_urls _ _ _ u HB). split.
      * intros [?|(d & Hin & Hd)]; [by left|]. right. exists d.
        split; [|done]. by apply (dict_in_iterate c v d Hv).
      * intros [?|(d & Hin & Hd)]; [by left|]. right. exists d.
        split; [|done]. by apply (dict_in_iterate c v d Hv).
    + injection HB as <-. unfold brand_dicts. rewrite Hv.
      split; [by left|]. by intros [?|(d & ?%elem_of_nil & _)].
Qed.

Lemma collect_loop_urls cards st st' :
  foldM card_step st cards = Some st' →
  (∀ u, u ∈ st'.2 ↔
     u ∈ st.2 ∨ ∃ c, c ∈ cards ∧ c !! "image_url" = Some (VStr u)) ∧
  (∀ u, u ∈ st'.1 ↔
     u ∈ st.1 ∨ ∃ c d, c ∈ cards ∧ d ∈ brand_dicts c ∧
       d !! "image_url" = Some (VStr u)).
Proof.
  revert st. induction cards as [|c cards IH]; intros st; cbn [foldM].
  - intros [= <-]. split; intros u; (split; [by left|]).
    + by intros [?|(c & ?%elem_of_nil & _)].
    + by intros [?|(c & d & ?%elem_of_nil & _)].
  - destruct (card_step st c) as [st1|] eqn:Hstep; [|done]. simpl.
    intros Hrest. destruct (IH _ Hrest) as [IHc IHb].
    destruct (card_step_urls _ _ _ Hstep) as [Hc Hb].
    split; intros u.
    + rewrite IHc, Hc. split.
      * intros [[?|?]|(c' & Hin & Hu)]; [by left| |];
          right; [exists c | exists c'];
          (split; [|done]); [apply list_elem_of_here|by apply list_elem_of_further].
      * intros [?|(c' & Hin & Hu)]; [by left; left|].
        apply elem_of_cons in Hin as [->|Hin];
          [left; by right | right; by exists c'].
    + rewrite IHb, Hb. split.
      * intros [[?|(d & Hd & Hu)]|(c' & d & Hin & Hd & Hu)]; [by left| |];
          right; [exists c, d | exists c', d];
          (split; [|done]); [apply list_elem_of_here|by apply list_elem_of_further].
      * intros [?|(c' & d & Hin & Hd & Hu)]; [by left; left|].
        apply elem_of_cons in Hin as [->|Hin];
          [left; right; by exists d | right; by exists c', d].
Qed.

(** X11.  The two URL sets the downloader collects are exactly the
    [image_url] of the cards and the [image_url] of the objects in their
    [brands] arrays: nothing else in the store is ever requested. *)
Theorem collected_urls_are_the_image_urls (cards : list card)
    (brand_urls card_urls : gset string) :
  collect_urls cards = Some (brand_urls, card_urls) →
  (∀ u, u ∈ card_urls ↔ ∃ c, c ∈ cards ∧ c !! "image_url" = Some (VStr u)) ∧
  (∀ u, u ∈ brand_urls ↔
     ∃ c d, c ∈ cards ∧ d ∈ brand_dicts c ∧ d !! "image_url" = Some (VStr u)).
Proof.
  intros Hcollect. destruct (collect_loop_urls _ _ _ Hcollect) as [Hc Hb].
  simpl in *. split; intros u.
  - rewrite Hc. split; [by intros [?%not_elem_of_empty|?] | by right].
  - rewrite Hb. split; [by intros [?%not_elem_of_empty|?] | by right].
Qed.

Lemma collected_urls_are_the_image_urls_witness :
  (∀ u, u ∈ ({[url_b; url_a]} : gset string) ↔
     ∃ c, c ∈ store_with_twin_images ∧ c !! "image_url" = Some (VStr u)) ∧
  (∀ u, u ∈ (∅ : gset string) ↔
     ∃ c d, c ∈ store_with_twin_images ∧ d ∈ brand_dicts c ∧
       d !! "image_url" = Some (VStr u)).
Proof.
  apply (collected_urls_are_the_image_urls store_with_twin_images ∅
           {[url_b; url_a]}).
  reflexivity.
Defined.

Lemma load_existing_images_spec listing name :
  name ∈ load_existing_images listing ↔
    name ∈ listing ∧ glob_matches name = true.
Proof.
  unfold load_existing_images.
  rewrite elem_of_list_to_set, list_elem_of_filter. tauto.
Qed.

Lemma process_cards_requests url_path brands cards_dir cards brand_urls
    card_urls :
  collect_urls cards = Some (brand_urls, card_urls) →
  (∀ u, u ∈ brand_urls ∪ card_urls → is_Some (url_path u)) →
  requests (process_cards url_path brands cards_dir (Some cards))
  = (filter (λ u, is_new url_path (load_existing_images brands) u = true)
       (elements brand_urls),
     filter (λ u, is_new url_path (load_existing_images cards_dir) u = true)
       (elements card_urls)).
Proof.
  intros Hurls Hparsed.
  destruct (download_tasks_urls url_path "images/brands" _
              (filter_is_new_parsed url_path (load_existing_images brands)
                 (elements brand_urls))) as (bt & Hbt & Hbfst).
  destruct (download_tasks_urls url_path "images/cards" _
              (filter_is_new_parsed url_path (load_existing_images cards_dir)
                 (elements card_urls))) as (ct & Hct & Hcfst).
  unfold process_cards. rewrite Hurls. simpl.
  rewrite !new_urls_spec by (intros u Hu; apply Hparsed; set_solver).
  simpl. rewrite Hbt, Hct. simpl. by rewrite Hbfst, Hcfst.
Qed.

(** X12.  Only files named [*.png], [*.jpg], [*.jpeg] or [*.gif] count as
    downloaded: a card image whose file name has another ending is
    requested on every run, whatever the directory holds. *)
Theorem other_extensions_are_always_requested
    (url_path : string → option string) (brands cards_dir : list string)
    (cards : list card) (brand_urls card_urls : gset string)
    (u filename : string) :
  collect_urls cards = Some (brand_urls, card_urls) →
  (∀ u, u ∈ brand_urls ∪ card_urls → is_Some (url_path u)) →
  u ∈ card_urls →
  get_filename_from_url url_path u = Some filename →
  glob_matches filename = false →
  u ∈ (requests (process_cards url_path brands cards_dir (Some cards))).2.
Proof.
  intros Hurls Hparsed Hu Hname Hglob.
  rewrite (process_cards_requests _ _ _ _ _ _ Hurls Hparsed). simpl.
  apply list_elem_of_filter. split; [|by apply elem_of_elements].
  unfold is_new. rewrite Hname. apply bool_decide_eq_true.
  intros [_ Hmatch]%load_existing_images_spec. by rewrite Hglob in Hmatch.
Qed.

Definition url_webp : string := "https://a.example/img/y.webp".

Lemma other_extensions_are_always_requested_witness :
  url_webp ∈
    (requests (process_cards sample_url_path [] ["y.webp"]
                 (Some [{["image_url" := VStr url_webp]}]))).2.
Proof.
  apply (other_extensions_are_always_requested sample_url_path [] ["y.webp"]
           [{["image_url" := VStr url_webp]}] ∅ {[url_webp]} url_webp "y.webp").
  - reflexivity.
  - intros u Hu. rewrite (left_id_L ∅ (∪)) in Hu.
    apply elem_of_singleton in Hu as ->. by eexists.
  - by apply elem_of_singleton.
  - reflexivity.
  - reflexivity.
Defined.

(** A card whose [image_url] is an array. *)
Definition card_with_list_image : card := {["image_url" := VList []]}.

(** X13.  A card whose [image_url] is an array or an object (not hashable)
    ends the run before anything is requested: collecting the URLs raises,
    and no image of any other card is downloaded. *)
Theorem unhashable_image_url_stops_run (url_path : string → option string)
    (brands cards_dir : list string) (cards : list card) (c : card) :
  c ∈ cards →
  (∃ v, c !! "image_url" = Some v ∧ ∀ s, v ≠ VStr s) →
  process_cards url_path brands cards_dir (Some cards) = Raised ∧
  requests (process_cards url_path brands cards_dir (Some cards)) = ([], []).
Proof.
  intros Hc (v & Hv & Hnot).
  assert (collect_urls cards = None) as Hnone.
  { unfold collect_urls. apply (foldM_raises _ _ c); [done|].
    intros st. unfold card_step. rewrite Hv.
    destruct v as [s| |]; [by destruct (Hnot s) | done | done]. }
  assert (process_cards url_path brands cards_dir (Some cards) = Raised) as ->.
  { unfold process_cards. by rewrite Hnone. }
  done.
Qed.

Lemma unhashable_image_url_stops_run_witness :
  process_cards sample_url_path [] []
    (Some [{["image_url" := VStr url_a]}; card_with_list_image]) = Raised ∧
  requests (process_cards sample_url_path [] []
    (Some [{["image_url" := VStr url_a]}; card_with_list_image])) = ([], []).
Proof.
  apply (unhashable_image_url_stops_run sample_url_path [] []
           [{["image_url" := VStr url_a]}; card_with_list_image]
           card_with_list_image).
  - apply list_elem_of_further, list_elem_of_here.
  - exists (VList []). split; [reflexivity | done].
Defined.

(** [s] has no slash. *)
Fixpoint no_slash (s : string) : bool :=
  match s with
  | EmptyString => true
  | String c rest => if decide (c = "/"%char) then false else no_slash rest
  end.

Lemma basename_from_cases p acc :
  if no_slash p then basename_from acc p = acc
  else no_slash (basename_from acc p) = true.
Proof.
  revert acc. induction p as [|c rest IH]; intros acc; simpl; [done|].
  destruct (decide (c = "/"%char)); [|apply IH].
  specialize (IH rest). destruct (no_slash rest) eqn:Hrest; [|done].
  by rewrite IH.
Qed.

Lemma basename_no_slash p : no_slash (basename p) = true.
Proof.
  unfold basename. pose proof (basename_from_cases p p) as H.
  destruct (no_slash p) eqn:Hp; [by rewrite H | done].
Qed.

Lemma basename_from_join acc directory filename :
  no_slash filename = true →
  basename_from acc (directory +:+ "/" +:+ filename) = filename.
Proof.
  intros Hf. revert acc. induction directory as [|c rest IH]; intros acc; simpl.
  - pose proof (basename_from_cases filename filename) as H.
    by rewrite Hf in H.
  - destruct (decide (c = "/"%char)); apply IH.
Qed.

Lemma basename_join directory filename :
  no_slash filename = true →
  basename (directory +:+ "/" +:+ filename) = filename.
Proof. apply basename_from_join. Qed.

Section downloader_paths.
Variable url_path : string → option string.

Lemma filter_step_loop_elem existing urls acc new_urls u :
  foldM (filter_step url_path existing) acc urls = Some new_urls →
  u ∈ new_urls → u ∈ acc ∨ (u ∈ urls ∧ is_new url_path existing u = true).
Proof.
  revert acc. induction urls as [|x urls IH]; intros acc; cbn [foldM].
  - intros [= <-]. by left.
  - destruct (filter_step url_path existing acc x) as [acc1|] eqn:Hstep;
      [|done].
    simpl. intros Hrest Hu. destruct (IH _ Hrest Hu) as [Hacc1|[Hin Hnew]].
    + unfold filter_step in Hstep.
      destruct (get_filename_from_url url_path x) as [f|] eqn:Hf;
        simpl in Hstep; [|done].
      injection Hstep as <-.
      destruct (decide (f ∈ existing)) as [Hex|Hex]; [by left|].
      apply elem_of_app in Hacc1 as [?|Hx]; [by left|].
      apply list_elem_of_singleton in Hx as ->.
      right. split; [apply list_elem_of_here|].
      unfold is_new. rewrite Hf. by apply bool_decide_eq_true.
    + right. split; [by apply list_elem_of_further | done].
Qed.

Lemma download_tasks_elem directory urls tasks u save_path :
  download_tasks url_path directory urls = Some tasks →
  (u, save_path) ∈ tasks →
  u ∈ urls ∧
  ∃ filename, get_filename_from_url url_path u = Some filename ∧
    save_path = directory +:+ "/" +:+ filename.
Proof.
  unfold download_tasks. intros Htasks%mapM_Some Hin.
  apply list_elem_of_lookup in Hin as [i Hi].
  destruct (Forall2_lookup_r _ _ _ _ _ Htasks Hi) as (x & Hx & Hfx).
  destruct (get_filename_from_url url_path x) as [f|] eqn:Hf;
    simpl in Hfx; [|done].
  injection Hfx as <- <-. split; [by eapply list_elem_of_lookup_2|].
  by exists f.
Qed.
End downloader_paths.

(** X14.  Every card image download is saved in [images/cards] under the
    basename of its URL path.  That name has no slash, so the file lies in
    the directory itself and the next scan reads the same name back from
    the saved path; and the scan of this run did not have it. *)
Theorem card_downloads_are_saved_by_basename
    (url_path : string → option string) (brands cards_dir : list string)
    (cards : list card) (brand_tasks card_tasks : list (string * string))
    (u save_path : string) :
  process_cards url_path brands cards_dir (Some cards)
  = Downloaded brand_tasks card_tasks →
  (u, save_path) ∈ card_tasks →
  ∃ filename,
    get_filename_from_url url_path u = Some filename ∧
    save_path = "images/cards" +:+ "/" +:+ filename ∧
    no_slash filename = true ∧
    basename save_path = filename ∧
    filename ∉ load_existing_images cards_dir.
Proof.
  unfold process_cards.
  destruct (collect_urls cards) as [[B C]|]; simpl; [|done].
  destruct (new_urls url_path (load_existing_images brands) B) as [nb|];
    simpl; [|done].
  destruct (new_urls url_path (load_existing_images cards_dir) C) as [nc|] eqn:Hnc;
    simpl; [|done].
  destruct (download_tasks url_path "images/brands" nb) as [bt|]; simpl; [|done].
  destruct (download_tasks url_path "images/cards" nc) as [ct|] eqn:Hct;
    simpl; [|done].
  intros [= <- <-] Hin.
  destruct (download_tasks_elem _ _ _ _ _ _ Hct Hin) as (Hu & f & Hf & ->).
  destruct (filter_step_loop_elem _ _ _ _ _ _ Hnc Hu) as [?%elem_of_nil|[_ Hnew]];
    [done|].
  assert (no_slash f = true) as Hslash.
  { unfold get_filename_from_url in Hf. destruct (url_path u); [|done].
    injection Hf as <-. apply basename_no_slash. }
  exists f. split; [done|]. split; [done|]. split; [done|].
  split; [by apply basename_join|].
  unfold is_new in Hnew. rewrite Hf in Hnew. by apply bool_decide_eq_true in Hnew.
Qed.

Lemma card_downloads_are_saved_by_basename_witness :
  ∃ filename,
    get_filename_from_url sample_url_path url_webp = Some filename ∧
    "images/cards/y.webp" = "images/cards" +:+ "/" +:+ filename ∧
    no_slash filename = true ∧
    basename "images/cards/y.webp" = filename ∧
    filename ∉ load_existing_images ["y.webp"].
Proof.
  apply (card_downloads_are_saved_by_basename sample_url_path [] ["y.webp"]
           [{["image_url" := VStr url_webp]}] []
           [(url_webp, "images/cards/y.webp")] url_webp "images/cards/y.webp").
  - reflexivity.
  - apply list_elem_of_here.
Defined.

(** X15.  The page URLs are one per page number: different pages are
    different URLs, so a default run requests 114 different URLs. *)
Theorem page_urls_are_distinct :
  (∀ p q, page_url p = page_url q → p = q) ∧
  NoDup (page_url <$> seqZ 1 total_pages).
Proof.
  assert (∀ p q, page_url p = page_url q → p = q) as Hinj.
  { intros p q Heq. unfold page_url in Heq.
    apply String.app_inj in Heq. by apply (inj pretty). }
  split; [done|]. apply NoDup_fmap_2; [|apply NoDup_seqZ].
  intros p q. apply Hinj.
Qed.

(** ** The merge engine, one field at a time *)

(** The values the records named [n] of a batch bring for field [k], in
    the order of the batch. *)
Definition field_writes (n k : string) (new_cards : list card) : list value :=
  omap (λ c : card, if has_name n c then c !! k else None) new_cards.

Lemma entry_after_field T n k old new_cards :
  k ≠ "updated_at" →
  ∃ r, entry_after T n (Some old) new_cards = Some r ∧
    r !! k = match last (field_writes n k new_cards) with
             | Some v => Some v
             | None => old !! k
             end.
Proof.
  intros Hk. unfold entry_after, field_writes. revert old.
  induction new_cards as [|c rest IH]; intros old; simpl; [by eexists|].
  destruct (has_name n c) eqn:Hn; [|apply IH]. simpl.
  destruct (IH (<["updated_at" := VStr T]> (c ∪ old))) as (r & -> & Hr).
  exists r. split; [done|]. rewrite Hr, lookup_insert_ne by done.
  destruct (c !! k) as [v|] eqn:Hv.
  - rewrite last_cons. destruct (last _); [done|].
    by apply lookup_union_Some_l.
  - destruct (last _); [done|]. by apply lookup_union_r.
Qed.

(** [{"name": "Card A", "annual_fee": "W", "rank": "3"}] *)
Definition scraped_card_a_again : card :=
  <["name" := VStr "Card A"]> (<["annual_fee" := VStr "W"]>
    (<["rank" := VStr "3"]> ∅)).

(** X16.  For a stored name the merge is last writer wins, field by
    field: in the mapping the loop builds, the one record of the name has,
    for every field other than [updated_at], the value of the last record
    of the batch that has the name and the field, and the stored value when
    no such record has the field.  That record stands in the returned list
    where the stored record stood. *)
Theorem merge_last_writer_wins (existing : dict card) (new_cards : list card)
    (current_time n : string) (old : card) :
  dict_get n existing = Some old →
  Forall (λ c, name_ok c = true) new_cards →
  ∃ merged r,
    merge_loop current_time existing new_cards = Some merged ∧
    merge_cards existing new_cards current_time = Some (dict_values merged) ∧
    dict_get n merged = Some r ∧
    (∀ k, k ≠ "updated_at" →
       r !! k = match last (field_writes n k new_cards) with
                | Some v => Some v
                | None => old !! k
                end) ∧
    (∀ i : nat, NoDup existing.*1 → existing !! i = Some (n, old) →
       dict_values merged !! i = Some r).
Proof.
  intros Hold Hok.
  destruct (merge_loop_entry current_time n new_cards existing Hok)
    as (merged & Hloop & Hn).
  rewrite Hold in Hn.
  destruct (entry_after_field current_time n "name" old new_cards)
    as (r & Hr & _); [done|].
  rewrite Hr in Hn.
  exists merged, r. split; [done|]. split; [by apply merge_cards_loop|].
  split; [done|]. split.
  - intros k Hk.
    destruct (entry_after_field current_time n k old new_cards Hk)
      as (r' & Hr' & Hfield).
    rewrite Hr in Hr'. by injection Hr' as <-.
  - intros i Hnodup Hi.
    destruct (merge_loop_position _ _ _ _ _ _ _ Hnodup Hi Hloop)
      as (r' & Hi' & Hget).
    rewrite Hn in Hget. injection Hget as <-.
    unfold dict_values. by rewrite list_lookup_fmap, Hi'.
Qed.

Lemma merge_last_writer_wins_witness :
  ∃ merged r,
    merge_loop t1 [("Card A", stored_card_a)]
      [scraped_card_a_again; scraped_card_b; scraped_card_a] = Some merged ∧
    merge_cards [("Card A", stored_card_a)]
      [scraped_card_a_again; scraped_card_b; scraped_card_a] t1
    = Some (dict_values merged) ∧
    dict_get "Card A" merged = Some r ∧
    (∀ k, k ≠ "updated_at" →
       r !! k
       = match last (field_writes "Card A" k
                       [scraped_card_a_again; scraped_card_b; scraped_card_a]) with
         | Some v => Some v
         | None => stored_card_a !! k
         end) ∧
    (∀ i : nat, NoDup [("Card A", stored_card_a)].*1 →
       [("Card A", stored_card_a)] !! i = Some ("Card A", stored_card_a) →
       dict_values merged !! i = Some r).
Proof.
  apply (merge_last_writer_wins [("Card A", stored_card_a)]
           [scraped_card_a_again; scraped_card_b; scraped_card_a] t1
           "Card A" stored_card_a).
  - reflexivity.
  - repeat constructor.
Defined.
